(** * ddl-checker: the static rule engine and the diagnostic aggregation

    A shallow embedding of [src/ddl_pre_commit_checker/ddl_checker.py]
    (class [DdlChecker]).  Python strings are sequences of Unicode code
    points, the pending-primary-key set is a finite set of strings, the list
    of messages is a list of strings, and an out-of-range token access is the
    exception [IndexError]. *)

From stdpp Require Import base numbers option list strings gmap sets pretty.

Local Open Scope N_scope.

(** ** Python strings *)

(** A [str] is a list of code points; [len] is the number of code points. *)
Abbreviation char := N (only parsing).
Abbreviation str := (list N) (only parsing).

Definition len (s : str) : nat := length s.

Fixpoint bytes_of_string (s : string) : list N :=
  match s with
  | EmptyString => []
  | String a r => Ascii.N_of_ascii a :: bytes_of_string r
  end.

(** The literals of the source are written in UTF-8 in this file as they
    are in the Python file; [utf8_decode] turns the bytes of a literal into
    its code points. *)
Fixpoint utf8_decode (bs : list N) : str :=
  match bs with
  | [] => []
  | b0 :: r0 =>
    if b0 <? 128 then b0 :: utf8_decode r0 else
    match r0 with
    | [] => [b0]
    | b1 :: r1 =>
      if b0 <? 224 then ((b0 - 192) * 64 + (b1 - 128)) :: utf8_decode r1 else
      match r1 with
      | [] => [b0; b1]
      | b2 :: r2 =>
        if b0 <? 240
        then ((b0 - 224) * 4096 + (b1 - 128) * 64 + (b2 - 128)) :: utf8_decode r2
        else
        match r2 with
        | [] => [b0; b1; b2]
        | b3 :: r3 =>
          ((b0 - 240) * 262144 + (b1 - 128) * 4096 + (b2 - 128) * 64 + (b3 - 128))
            :: utf8_decode r3
        end
      end
    end
  end.

Definition u (s : string) : str := utf8_decode (bytes_of_string s).

Definition LF : char := 10.
Definition SPACE : char := 32.
Definition DQUOTE : char := 34.
Definition SEMICOLON : char := 59.

(** [str.isspace] on one code point: the separators of [str.split()]. *)
Definition isspace (c : char) : bool :=
  ((9 <=? c) && (c <=? 13)) || ((28 <=? c) && (c <=? 32))
  || (c =? 133) || (c =? 160) || (c =? 5760)
  || ((8192 <=? c) && (c <=? 8202))
  || (c =? 8232) || (c =? 8233) || (c =? 8239) || (c =? 8287) || (c =? 12288).

(** [s.split()]: the maximal runs of non-space code points, in order.  [w]
    is the word being read. *)
Fixpoint split_from (w : str) (s : str) : list str :=
  match s with
  | [] => match w with [] => [] | _ => [w] end
  | c :: r =>
    if isspace c
    then match w with [] => split_from [] r | _ => w :: split_from [] r end
    else split_from (w ++ [c]) r
  end.

Definition split (s : str) : list str := split_from [] s.

(** [s.split(sep)] for a one-character separator: always at least one
    piece, the pieces are not trimmed and empty pieces are kept. *)
Fixpoint split_on (sep : char) (s : str) : list str :=
  match s with
  | [] => [[]]
  | c :: r =>
    if c =? sep then [] :: split_on sep r
    else match split_on sep r with
         | h :: t => (c :: h) :: t
         | [] => [[c]]
         end
  end.

(** [s.startswith(p)] *)
Fixpoint startswith (p s : str) : bool :=
  match p, s with
  | [], _ => true
  | a :: p', b :: s' => (a =? b) && startswith p' s'
  | _ :: _, [] => false
  end.

(** [p in s] *)
Fixpoint contains (p s : str) : bool :=
  startswith p s || match s with [] => false | _ :: r => contains p r end.

Fixpoint strip_prefix (p s : str) : option str :=
  match p, s with
  | [], _ => Some s
  | a :: p', b :: s' => if a =? b then strip_prefix p' s' else None
  | _ :: _, [] => None
  end.

(** [str(n)] for a length. *)
Definition str_of_nat (n : nat) : str := u (pretty n).

(** ** The regular expressions of the source

    A pattern is a matcher in continuation style, as a backtracking engine
    runs it: it gets the matcher of the rest of the pattern and the input
    left, and gives the input left after the whole match.  Greedy
    repetitions try the longest run first. *)

Definition cont : Type := str → option str.
Definition pattern : Type := cont → cont.

Definition re_lit (p : str) : pattern :=
  fun k s => match strip_prefix p s with Some r => k r | None => None end.

Definition re_one (P : char → bool) : pattern :=
  fun k s => match s with
             | c :: r => if P c then k r else None
             | [] => None
             end.

(** [[P]+] *)
Fixpoint re_plus (P : char → bool) (k : cont) (s : str) : option str :=
  match s with
  | [] => None
  | c :: r =>
    if P c
    then match re_plus P k r with Some x => Some x | None => k r end
    else None
  end.

(** [[P]*] *)
Fixpoint re_star (P : char → bool) (k : cont) (s : str) : option str :=
  match s with
  | [] => k []
  | c :: r =>
    if P c
    then match re_star P k r with Some x => Some x | None => k s end
    else k s
  end.

(** [(?=p)] *)
Definition re_lookahead (p : pattern) : pattern :=
  fun k s => match p Some s with Some _ => k s | None => None end.

(** [$] without MULTILINE: the end, or just before a final line feed. *)
Definition re_eos : pattern :=
  fun k s => match s with
             | [] => k s
             | [c] => if c =? LF then k s else None
             | _ => None
             end.

(** [.] without DOTALL *)
Definition dot (c : char) : bool := negb (c =? LF).

Definition is_lower (c : char) : bool := (97 <=? c) && (c <=? 122).
Definition is_upper (c : char) : bool := (65 <=? c) && (c <=? 90).
Definition is_digit (c : char) : bool := (48 <=? c) && (c <=? 57).

(** [[a-z0-9_]] *)
Definition is_name_char (c : char) : bool :=
  is_lower c || is_digit c || (c =? 95).

(** [re.match(p, s)]: a match at the start of [s]. *)
Definition re_match (p : pattern) (s : str) : option str := p Some s.

(** [re.search(p, s).group()]: the text of the leftmost match. *)
Fixpoint re_search (p : pattern) (s : str) : option str :=
  match p Some s with
  | Some rest => Some (take (length s - length rest) s)
  | None => match s with
            | [] => None
            | _ :: r => re_search p r
            end
  end.

(** [^(?=.*[a-z])(?=.*[A-Z]).*$]; [^] holds at the start of the text only,
    so the search is a match at the start. *)
Definition re_mixed_case : pattern :=
  fun k =>
    re_lookahead (fun k' => re_star dot (re_one is_lower k'))
      (re_lookahead (fun k' => re_star dot (re_one is_upper k'))
         (re_star dot (re_eos k))).

Definition ALTER_TABLE_ : str := Eval vm_compute in u "ALTER TABLE ".
Definition _ADD_CONSTRAINT : str := Eval vm_compute in u " ADD CONSTRAINT".

(** [ALTER TABLE [a-z0-9_]+ ADD CONSTRAINT] *)
Definition re_alter_table_add_constraint : pattern :=
  fun k => re_lit ALTER_TABLE_ (re_plus is_name_char (re_lit _ADD_CONSTRAINT k)).

(** [primary key constraint on table Q.+Q lacks column Q.+Q which is part
    of the partition key.], where Q is the double quote. *)
Definition re_partition_error : pattern :=
  fun k =>
    re_lit (u "primary key constraint on table " ++ [DQUOTE])
      (re_plus dot
         (re_lit ([DQUOTE] ++ u " lacks column " ++ [DQUOTE])
            (re_plus dot
               (re_lit ([DQUOTE] ++ u " which is part of the partition key")
                  (re_one dot k))))).

(** [re.sub] of the pattern [\n{2}] by the empty string: every pair of line
    feeds, found from the left without overlap, is deleted. *)
Fixpoint sub_double_newline (s : str) : str :=
  match s with
  | [] => []
  | c :: r =>
    match r with
    | c' :: r' =>
      if (c =? LF) && (c' =? LF) then sub_double_newline r'
      else c :: sub_double_newline r
    | [] => [c]
    end
  end.

(** [re.sub] of the double quote by the empty string. *)
Definition sub_quote (s : str) : str := filter (fun c => c ≠ DQUOTE) s.

(** ** Exceptions *)

Inductive exception := IndexError.

Inductive result (A : Type) :=
| Ok (a : A)
| Raise (e : exception).
Arguments Ok {A} a.
Arguments Raise {A} e.

#[global] Instance result_ret : MRet result := fun A a => Ok a.
#[global] Instance result_bind : MBind result :=
  fun A B f m => match m with Ok a => f a | Raise e => Raise e end.
#[global] Instance result_fmap : FMap result :=
  fun A B f m => match m with Ok a => Ok (f a) | Raise e => Raise e end.

(** [l[i]] *)
Definition getitem {A} (l : list A) (i : nat) : result A :=
  match l !! i with
  | Some x => Ok x
  | None => Raise IndexError
  end.

(** ** class DdlChecker *)

Record DdlChecker := {
  _ddl : str;
  _no_primary_key_table_names : gset str;
  messages : list str
}.

(** [__init__] *)
Definition init (ddl : str) : DdlChecker :=
  {| _ddl := ddl; _no_primary_key_table_names := ∅; messages := [] |}.

(** [self.messages.append(m)] *)
Definition append (m : str) (self : DdlChecker) : DdlChecker :=
  {| _ddl := _ddl self;
     _no_primary_key_table_names := _no_primary_key_table_names self;
     messages := messages self ++ [m] |}.

Definition set_pending (names : gset str) (self : DdlChecker) : DdlChecker :=
  {| _ddl := _ddl self;
     _no_primary_key_table_names := names;
     messages := messages self |}.

(** The f-strings of the messages. *)
Definition msg_table_length (table_name : str) : str :=
  u "テーブル名の最大長は63文字です (" ++ table_name ++ u ")".

Definition msg_index_mixed (index_name : str) : str :=
  u "大文字・小文字混合のインデックス名は" ++ [DQUOTE; DQUOTE]
    ++ u "で囲む必要があります (" ++ index_name ++ u ")".

Definition msg_index_length (index_name : str) : str :=
  u "インデックス名の最大長は63文字です (" ++ index_name ++ u ")".

Definition msg_identifier_mixed (identifier : str) : str :=
  u "大文字・小文字混合の識別子は" ++ [DQUOTE; DQUOTE]
    ++ u "で囲む必要があります (" ++ identifier ++ u ")".

Definition msg_identifier_length (identifier : str) : str :=
  u "識別子の最大長は" ++ [DQUOTE; DQUOTE] ++ u "を除いて63文字です ("
    ++ identifier ++ u ": " ++ str_of_nat (len identifier) ++ u "文字)".

Definition indent : str := Eval vm_compute in u "                ".

Definition msg_alter_order (table_name : str) : str :=
  [LF] ++ indent ++ u "ALTER TABLE " ++ table_name ++ u "~はCREATE TABLE "
    ++ table_name ++ u "~の後に記載してください" ++ [LF]
    ++ indent ++ u "またCREATE TABLE " ++ table_name
    ++ u "~の直前の改行が1行になっているかを確認してください" ++ [LF]
    ++ indent.

Definition msg_missing_primary_key (table_name : str) : str :=
  table_name ++ u "のプライマリキーが定義されていません".

Definition msg_partition (table_name partition_column_name : str) : str :=
  u "partition byで指定したカラムがプライマリキーに含まれないテーブルがあります ("
    ++ table_name ++ u "." ++ partition_column_name ++ u ")".

Definition CREATE_TABLE : str := Eval vm_compute in u "CREATE TABLE".
Definition CREATE_INDEX : str := Eval vm_compute in u "CREATE INDEX".
Definition CREATE_UNIQUE_INDEX : str := Eval vm_compute in u "CREATE UNIQUE INDEX".
Definition PRIMARY_KEY : str := Eval vm_compute in u "PRIMARY KEY".
Definition PRIMARY : str := Eval vm_compute in u "PRIMARY".
Definition FOREIGN : str := Eval vm_compute in u "FOREIGN".
Definition UNIQUE : str := Eval vm_compute in u "UNIQUE".
Definition KEY : str := Eval vm_compute in u "KEY".

(** [text[0] == Q and text[-1] == Q], Q the double quote; the text is not
    empty where the source evaluates this. *)
Definition wrapped_in_quotes (text : str) : bool :=
  bool_decide (head text = Some DQUOTE) && bool_decide (last text = Some DQUOTE).

Definition _check_mix_upper_lower_case_text (text : str) : bool :=
  match re_match re_mixed_case text with
  | Some _ => if negb (wrapped_in_quotes text) then false else true
  | None => true
  end.

Definition _check_create_table_query (self : DdlChecker) (query : str)
  : result DdlChecker :=
  let tokens := split query in
  table_name ← getitem tokens 2;
  let self :=
    if negb (contains PRIMARY_KEY query)
    then set_pending ({[table_name]} ∪ _no_primary_key_table_names self) self
    else self in
  let self :=
    if (63 <? len table_name)%nat
    then append (msg_table_length table_name) self
    else self in
  Ok self.

Definition _check_create_index_query (self : DdlChecker) (query : str)
  (is_unique : bool) : result DdlChecker :=
  let tokens := split query in
  index_name ← getitem tokens 2;
  index_name ← (if is_unique then getitem tokens 3 else Ok index_name);
  let self :=
    if negb (_check_mix_upper_lower_case_text index_name)
    then append (msg_index_mixed index_name) self
    else self in
  let self :=
    if (63 <? len index_name)%nat
    then append (msg_index_length index_name) self
    else self in
  Ok self.

Definition _check_alter_table_add_constraint_query (self : DdlChecker)
  (query : str) : result DdlChecker :=
  let tokens := split query in
  table_name ← getitem tokens 2;
  identifier ← getitem tokens 5;
  let self :=
    if negb (_check_mix_upper_lower_case_text identifier)
    then append (msg_identifier_mixed identifier) self
    else self in
  let self :=
    if (63 <? len (sub_quote identifier))%nat
    then append (msg_identifier_length identifier) self
    else self in
  t6 ← getitem tokens 6;
  if bool_decide (t6 = PRIMARY) then
    t7 ← getitem tokens 7;
    if bool_decide (t7 = KEY) then
      if bool_decide (table_name ∈ _no_primary_key_table_names self)
      then Ok (set_pending (_no_primary_key_table_names self ∖ {[table_name]}) self)
      else Ok (append (msg_alter_order table_name) self)
    else Ok self
  else if bool_decide (t6 = FOREIGN) then
    _ ← getitem tokens 7;
    Ok self
  else Ok self.

(** The kind of a statement: the if/elif chain of [_check_ddl_syntax]. *)
Inductive kind :=
| CreateTable
| CreateIndex
| CreateUniqueIndex
| AlterTableAddConstraint
| Unrecognized.

Definition classify (query : str) : kind :=
  if startswith CREATE_TABLE query then CreateTable
  else if startswith CREATE_INDEX query then CreateIndex
  else if startswith CREATE_UNIQUE_INDEX query then CreateUniqueIndex
  else if re_match re_alter_table_add_constraint query is Some _
       then AlterTableAddConstraint
  else Unrecognized.

(** The body of the loop over the statements. *)
Definition check_query (self : DdlChecker) (query : str) : result DdlChecker :=
  match classify query with
  | CreateTable => _check_create_table_query self query
  | CreateIndex => _check_create_index_query self query false
  | CreateUniqueIndex => _check_create_index_query self query true
  | AlterTableAddConstraint => _check_alter_table_add_constraint_query self query
  | Unrecognized => Ok self
  end.

(** The statements the loop runs over. *)
Definition statements (ddl : str) : list str :=
  split_on SEMICOLON (sub_double_newline ddl).

Fixpoint check_queries (self : DdlChecker) (queries : list str)
  : result DdlChecker :=
  match queries with
  | [] => Ok self
  | query :: rest => self ← check_query self query; check_queries self rest
  end.

(** What the database gives at one turn of the loop that connects and
    executes the DDL: the DDL was executed, the exception raised has an
    OperationalError as [orig] (the engine is not ready, the turn is
    retried), or it has another error, of which [str] gives the text.  An
    attempt does not say whether connect or execute raised, and every
    exception has its [orig]: [turn] and [_execute_ddl_turns] below have
    both. *)
Inductive attempt :=
| Executed
| RaisedOperationalError
| RaisedError (original_error : str).

Definition _parse_partition_error_text (self : DdlChecker)
  (partition_error_text : str) : result DdlChecker :=
  let lines := split partition_error_text in
  table_name ← getitem lines 5;
  partition_column_name ← getitem lines 8;
  Ok (append (msg_partition table_name partition_column_name) self).

Section DdlChecker.

(** The order in which Python iterates over a set is not specified: it is a
    parameter, some enumeration of the elements. *)
Variable set_iter : gset str → list str.
Hypothesis set_iter_perm : ∀ s, set_iter s ≡ₚ elements s.

(** [str.lower]: the case table of Unicode is not part of the repository. *)
Variable lower : str → str.

Definition _check_ddl_syntax (self : DdlChecker) : result DdlChecker :=
  self ← check_queries self (statements (_ddl self));
  Ok (foldl (fun self table_name =>
               append (msg_missing_primary_key table_name) self)
        self (set_iter (_no_primary_key_table_names self))).

(** The loop that connects and executes, over the outcomes of its turns;
    [None] when the turns given are all retried.  The container and the
    port have no part in the messages. *)
Fixpoint _execute_ddl (attempts : list attempt) (self : DdlChecker)
  : option (result DdlChecker) :=
  match attempts with
  | [] => None
  | Executed :: _ => Some (Ok self)
  | RaisedOperationalError :: rest => _execute_ddl rest self
  | RaisedError original_error :: _ =>
    let original_error_text := lower original_error in
    match re_search re_partition_error original_error_text with
    | Some group => Some (_parse_partition_error_text self group)
    | None => Some (Ok (append original_error_text self))
    end
  end.

Definition check_ddl (attempts : list attempt) (self : DdlChecker)
  : option (result (list str)) :=
  match _check_ddl_syntax self with
  | Raise e => Some (Raise e)
  | Ok self =>
    match _execute_ddl attempts self with
    | None => None
    | Some (Raise e) => Some (Raise e)
    | Some (Ok self) => Some (Ok (messages self))
    end
  end.

End DdlChecker.

(** [str.lower] on ASCII text. *)
Definition ascii_lower (s : str) : str :=
  map (fun c => if is_upper c then c + 32 else c) s.

(** ** The diagnostics of one statement *)

Definition table_diagnostics (table_name : str) : list str :=
  if (63 <? len table_name)%nat then [msg_table_length table_name] else [].

Definition index_diagnostics (index_name : str) : list str :=
  (if negb (_check_mix_upper_lower_case_text index_name)
   then [msg_index_mixed index_name] else [])
  ++ (if (63 <? len index_name)%nat then [msg_index_length index_name] else []).

Definition identifier_diagnostics (identifier : str) : list str :=
  (if negb (_check_mix_upper_lower_case_text identifier)
   then [msg_identifier_mixed identifier] else [])
  ++ (if (63 <? len (sub_quote identifier))%nat
      then [msg_identifier_length identifier] else []).

Definition extend (d : list str) (self : DdlChecker) : DdlChecker :=
  {| _ddl := _ddl self;
     _no_primary_key_table_names := _no_primary_key_table_names self;
     messages := messages self ++ d |}.

(** The statement is an ALTER TABLE ... ADD CONSTRAINT ... PRIMARY KEY of
    the table [table_name]. *)
Definition adds_primary_key (table_name : str) (query : str) : Prop :=
  classify query = AlterTableAddConstraint
  ∧ split query !! 2%nat = Some table_name
  ∧ split query !! 6%nat = Some PRIMARY
  ∧ split query !! 7%nat = Some KEY.

(** How often a message occurs in a list of messages. *)
Definition occurrences (m : str) (l : list str) : nat :=
  length (filter (fun x => x = m) l).

(** ** Predicates and relations of the properties *)

Definition nospace (s : str) : Prop := Forall (fun c => isspace c = false) s.

Definition has_lower (text : str) : Prop := ∃ c, c ∈ text ∧ is_lower c = true.
Definition has_upper (text : str) : Prop := ∃ c, c ∈ text ∧ is_upper c = true.

(** Every message of a statement ends with a closing parenthesis or a space;
    a message of a missing primary key does not. *)
Definition statement_message (m : str) : Prop :=
  last m = Some 41 ∨ last m = Some SPACE.

(** The statement is a CREATE TABLE of [table_name] without PRIMARY KEY. *)
Definition creates_without_primary_key (table_name : str) (query : str) : Prop :=
  classify query = CreateTable
  ∧ split query !! 2%nat = Some table_name
  ∧ contains PRIMARY_KEY query = false.

(** The run of the loop, with the messages each statement appends. *)
Inductive run : DdlChecker → list str → list (list str) → DdlChecker → Prop :=
| run_nil self : run self [] [] self
| run_cons self query self1 d queries ds self' :
    check_query self query = Ok self1 →
    messages self1 = messages self ++ d →
    run self1 queries ds self' →
    run self (query :: queries) (d :: ds) self'.

(** [sep.join(pieces)] *)
Fixpoint join (sep : str) (pieces : list str) : str :=
  match pieces with
  | [] => []
  | [piece] => piece
  | piece :: rest => piece ++ sep ++ join sep rest
  end.

(** The documents of the examples. *)
Definition create_t : str := u "CREATE TABLE t (id int)".
Definition alter_t : str :=
  u "ALTER TABLE t ADD CONSTRAINT t_pk PRIMARY KEY (id)".
Definition create_alter_with_space : str :=
  u "CREATE TABLE t (id int); ALTER TABLE t ADD CONSTRAINT t_pk PRIMARY KEY (id);".
Definition create_alter (sep : str) : str :=
  create_t ++ [SEMICOLON] ++ sep ++ alter_t ++ [SEMICOLON].
Definition create_with_primary_key : str :=
  u "CREATE TABLE t (id int, PRIMARY KEY (id));".

Definition type_error : str := u "type Money does not exist".

Definition create_T_alter_T : str :=
  u "CREATE TABLE T (id int);" ++ [LF; LF]
    ++ u "ALTER TABLE T ADD CONSTRAINT t_pk PRIMARY KEY (id);".

(** ** Definitions of the further properties *)

(** How often a character is in a text. *)
Definition count_char (c : char) (s : str) : nat :=
  length (filter (fun x => x = c) s).

(** A document in the layout the checker reads: every statement is followed
    by a semicolon and an empty line. *)
Definition layout (queries : list str) : str :=
  concat ((fun query => query ++ [SEMICOLON; LF; LF]) <$> queries).

(** The statement has the words its checker reads. *)
Definition enough_words (query : str) : bool :=
  let n := length (split query) in
  match classify query with
  | CreateTable | CreateIndex => bool_decide (3 ≤ n)%nat
  | CreateUniqueIndex => bool_decide (4 ≤ n)%nat
  | AlterTableAddConstraint =>
    match split query !! 6%nat with
    | None => false
    | Some t6 =>
      if bool_decide (t6 = PRIMARY) || bool_decide (t6 = FOREIGN)
      then bool_decide (8 ≤ n)%nat
      else true
    end
  | Unrecognized => true
  end.

(** The text the pattern of the partition error matches, for a table and a
    column: the names are between double quotes. *)
Definition partition_error_text (table column : str) : str :=
  u "primary key constraint on table " ++ [DQUOTE] ++ table ++ [DQUOTE]
    ++ u " lacks column " ++ [DQUOTE] ++ column ++ [DQUOTE]
    ++ u " which is part of the partition key.".

(** A greedy repetition after its first character: the rest of the pattern
    is tried at every place the repetition can stop, the farthest first. *)
Definition re_try (P : char → bool) (k : cont) (s : str) : option str :=
  match re_plus P k s with
  | Some x => Some x
  | None => k s
  end.

(** The text of PostgreSQL for a primary key without the column of the
    partition key, as the driver gives it. *)
Definition postgres_partition_error : str :=
  u "unique constraint on partitioned table must include all partitioning columns"
    ++ [LF] ++ u "DETAIL:  PRIMARY KEY constraint on table "
    ++ [DQUOTE] ++ u "orders" ++ [DQUOTE] ++ u " lacks column "
    ++ [DQUOTE] ++ u "created_at" ++ [DQUOTE]
    ++ u " which is part of the partition key." ++ [LF].

(** ** main.py *)

(** What [open(path).read()] gives: the text of the file, FileNotFoundError,
    or another exception, which [main] does not catch. *)
Inductive opened :=
| Content (ddl : str)
| FileNotFoundError
| OtherOpenError.

(** How [main] ends: it returns, it calls [sys.exit], or an exception leaves
    it. *)
Inductive ending :=
| Returned
| SystemExit (code : nat)
| Uncaught.

(** [main], from the arguments of the command line, the files and the turns
    of the execution, to what [main] itself prints (one text for each call
    of [print]; the lines of progress of the execution phase are not among
    them) and how it ends; [None] when the execution phase gives no
    result. *)
Definition main (set_iter : gset str → list str) (lower : str → str)
    (argv : list str) (open_file : str → opened) (attempts : list attempt)
  : option (list str * ending) :=
  if (length argv <? 2)%nat
  then Some ([u "[ERROR] DDLファイルが指定されていません"], SystemExit 1)
  else
    match argv !! 1%nat with
    | None => Some ([], Uncaught)
    | Some path =>
      match open_file path with
      | FileNotFoundError =>
        Some ([u "[ERROR] 指定されたDDLファイルが存在しません"], SystemExit 1)
      | OtherOpenError => Some ([], Uncaught)
      | Content ddl =>
        match check_ddl set_iter lower attempts (init ddl) with
        | None => None
        | Some (Raise e) => Some ([], Uncaught)
        | Some (Ok messages) =>
          match messages with
          | [] => Some ([], Returned)
          | _ :: _ => Some (([LF] ++ path ++ [LF]) :: messages, SystemExit 1)
          end
        end
      end
    end.

(** A document whose second CREATE TABLE statement comes after a semicolon
    and a line feed. *)
Definition create_after_line_feed : str :=
  u "CREATE TABLE a (id int, PRIMARY KEY (id));" ++ [LF]
    ++ u "CREATE TABLE t (id int);" ++ [LF].

(** ** The loop that connects and executes, turn by turn *)

(** The exception a turn of the loop catches: its [orig] is an
    OperationalError, its [orig] is another error, of which [str] gives the
    text, or it has no [orig], and then [getattr] raises AttributeError. *)
Inductive caught :=
| OrigOperationalError
| OrigError (original_error : str)
| NoOrig.

(** A turn of the loop, with the place where it fails: [engine.connect]
    raises, and the DDL is not submitted; [conn.execute] raises, after the
    DDL was submitted; or [conn.execute] returns. *)
Inductive turn :=
| ConnectRaised (e : caught)
| ExecuteRaised (e : caught)
| ExecuteReturned.

(** How the execution phase ends: the loop is left by [break] and the
    container is stopped, or an exception leaves the method before the
    container is stopped. *)
Inductive execution_end :=
| Stopped (self : DdlChecker)
| RaisedAttributeError
| RaisedIndexError.

(** The turn calls [conn.execute]. *)
Definition submits (t : turn) : bool :=
  match t with
  | ConnectRaised _ => false
  | ExecuteRaised _ | ExecuteReturned => true
  end.

(** The turn as an [attempt], for an exception that has its [orig]. *)
Definition attempt_of (t : turn) : attempt :=
  match t with
  | ExecuteReturned => Executed
  | ConnectRaised (OrigError original_error)
  | ExecuteRaised (OrigError original_error) => RaisedError original_error
  | ConnectRaised _ | ExecuteRaised _ => RaisedOperationalError
  end.

Definition has_orig (t : turn) : Prop :=
  t ≠ ConnectRaised NoOrig ∧ t ≠ ExecuteRaised NoOrig.

Definition retried (t : turn) : Prop :=
  t = ConnectRaised OrigOperationalError ∨ t = ExecuteRaised OrigOperationalError.

(** The except clause of the loop: [None] when it passes and the loop goes
    on, otherwise how the phase ends. *)
Definition except_clause (lower : str → str) (e : caught) (self : DdlChecker)
  : option execution_end :=
  match e with
  | NoOrig => Some RaisedAttributeError
  | OrigOperationalError => None
  | OrigError original_error =>
    let original_error_text := lower original_error in
    match re_search re_partition_error original_error_text with
    | Some group =>
      match _parse_partition_error_text self group with
      | Ok self => Some (Stopped self)
      | Raise IndexError => Some RaisedIndexError
      end
    | None => Some (Stopped (append original_error_text self))
    end
  end.

(** The loop of [_execute_ddl] over its turns: how it ends and how often
    [conn.execute] was called with the DDL, counted from [submitted];
    [None] when the turns given are all retried. *)
Fixpoint _execute_ddl_turns (lower : str → str) (turns : list turn)
    (submitted : nat) (self : DdlChecker) : option (execution_end * nat) :=
  match turns with
  | [] => None
  | ConnectRaised e :: rest =>
    match except_clause lower e self with
    | None => _execute_ddl_turns lower rest submitted self
    | Some ending => Some (ending, submitted)
    end
  | ExecuteRaised e :: rest =>
    match except_clause lower e self with
    | None => _execute_ddl_turns lower rest (S submitted) self
    | Some ending => Some (ending, S submitted)
    end
  | ExecuteReturned :: _ => Some (Stopped self, S submitted)
  end.

(** * Properties *)

(** Tactics for the tests on characters and for the last character of a
    message. *)
Ltac bool_lia :=
  unfold is_name_char, is_lower, is_upper, is_digit, isspace, dot, LF, SPACE,
    DQUOTE in *;
  repeat match goal with
         | |- _ = false => apply not_true_iff_false; intros ?
         | H : _ = false |- _ => apply not_true_iff_false in H
         end;
  rewrite ?orb_true_iff, ?andb_true_iff, ?negb_true_iff, ?N.leb_le, ?N.eqb_eq,
    ?N.eqb_neq in *;
  try lia.

Ltac decide_words :=
  match goal with
  | |- context [bool_decide (?k ≤ length ?l)%nat] =>
    first [rewrite (bool_decide_eq_true_2 (k ≤ length l)%nat) by lia
          |rewrite (bool_decide_eq_false_2 (k ≤ length l)%nat) by lia]
  end.

Ltac decide_closed :=
  match goal with
  | |- ?P => apply (bool_decide_unpack P); by vm_compute
  end.

Ltac last_char :=
  unfold statement_message, msg_table_length, msg_index_mixed, msg_index_length,
    msg_identifier_mixed, msg_identifier_length, msg_alter_order,
    msg_missing_primary_key, indent;
  repeat match goal with
         | |- context [u ?s] =>
           let v := eval vm_compute in (u s) in change (u s) with v
         end;
  rewrite ?app_assoc; rewrite ?last_app_cons.


Lemma extend_nil self : extend [] self = self.
Proof. destruct self; unfold extend; simpl; by rewrite app_nil_r. Qed.

Lemma extend_extend d1 d2 self :
  extend d2 (extend d1 self) = extend (d1 ++ d2) self.
Proof. unfold extend; simpl; by rewrite app_assoc. Qed.

Lemma append_extend m self : append m self = extend [m] self.
Proof. reflexivity. Qed.

(** The outcome of each checker in closed form. *)

Lemma _check_create_table_query_Ok self query table_name :
  split query !! 2%nat = Some table_name →
  _check_create_table_query self query =
    Ok (extend (table_diagnostics table_name)
          (if contains PRIMARY_KEY query then self
           else set_pending ({[table_name]} ∪ _no_primary_key_table_names self)
                  self)).
Proof.
  intros H. unfold _check_create_table_query, getitem, table_diagnostics.
  rewrite H; simpl.
  destruct (contains PRIMARY_KEY query), (63 <? len table_name)%nat; simpl;
    rewrite ?append_extend, ?extend_nil; reflexivity.
Qed.

Lemma _check_create_index_query_Ok self query (is_unique : bool) index_name :
  split query !! (if is_unique then 3%nat else 2%nat) = Some index_name →
  _check_create_index_query self query is_unique =
    Ok (extend (index_diagnostics index_name) self).
Proof.
  intros H. unfold _check_create_index_query, getitem, index_diagnostics.
  assert (is_Some (split query !! 2%nat)) as [t2 H2].
  { destruct is_unique; [|eauto].
    apply lookup_lt_is_Some. apply lookup_lt_Some in H. lia. }
  rewrite H2; simpl. destruct is_unique; [rewrite H|rewrite H2 in H]; simpl;
    simplify_eq.
  all: destruct (_check_mix_upper_lower_case_text index_name),
         (63 <? len index_name)%nat; simpl;
       rewrite ?append_extend, ?extend_extend, ?extend_nil; reflexivity.
Qed.

Lemma _check_alter_table_add_constraint_query_primary_key self query
    table_name identifier :
  split query !! 2%nat = Some table_name →
  split query !! 5%nat = Some identifier →
  split query !! 6%nat = Some PRIMARY →
  split query !! 7%nat = Some KEY →
  _check_alter_table_add_constraint_query self query =
    Ok (if bool_decide (table_name ∈ _no_primary_key_table_names self)
        then set_pending (_no_primary_key_table_names self ∖ {[table_name]})
               (extend (identifier_diagnostics identifier) self)
        else extend (identifier_diagnostics identifier ++ [msg_alter_order table_name])
               self).
Proof.
  intros H2 H5 H6 H7.
  unfold _check_alter_table_add_constraint_query, getitem, identifier_diagnostics.
  rewrite H2, H5, H6, H7; simpl.
  destruct (_check_mix_upper_lower_case_text identifier),
    (63 <? len (sub_quote identifier))%nat; simpl;
    case_bool_decide; simpl;
    rewrite ?append_extend, ?extend_extend, ?extend_nil; reflexivity.
Qed.

Lemma _check_alter_table_add_constraint_query_inv self query self' :
  _check_alter_table_add_constraint_query self query = Ok self' →
  ∃ table_name identifier,
    split query !! 2%nat = Some table_name
    ∧ split query !! 5%nat = Some identifier
    ∧ ((split query !! 6%nat = Some PRIMARY ∧ split query !! 7%nat = Some KEY)
       ∨ (¬ (split query !! 6%nat = Some PRIMARY ∧ split query !! 7%nat = Some KEY)
          ∧ self' = extend (identifier_diagnostics identifier) self)).
Proof.
  unfold _check_alter_table_add_constraint_query, getitem.
  destruct (split query !! 2%nat) as [table_name|] eqn:H2; [|done].
  destruct (split query !! 5%nat) as [identifier|] eqn:H5; [|done].
  destruct (split query !! 6%nat) as [t6|] eqn:H6; [|done].
  simpl. intros H. exists table_name, identifier. split_and!; [done..|].
  assert (∀ s, (if (63 <? len (sub_quote identifier))%nat
                then append (msg_identifier_length identifier)
                       (if negb (_check_mix_upper_lower_case_text identifier)
                        then append (msg_identifier_mixed identifier) s else s)
                else if negb (_check_mix_upper_lower_case_text identifier)
                     then append (msg_identifier_mixed identifier) s else s)
               = extend (identifier_diagnostics identifier) s) as E.
  { intros s0. unfold identifier_diagnostics.
    destruct (_check_mix_upper_lower_case_text identifier),
      (63 <? len (sub_quote identifier))%nat; simpl;
      rewrite ?append_extend, ?extend_extend, ?extend_nil; reflexivity. }
  rewrite !E in H. clear E.
  case_bool_decide as E6; simplify_eq.
  - destruct (split query !! 7%nat) as [t7|] eqn:H7; [|done]. simpl in H.
    case_bool_decide as E7; simplify_eq; [left; done|].
    right. split; [|done]. intros [_ ?]; simplify_eq.
  - right. split; [intros [? _]; simplify_eq|].
    case_bool_decide; [|by simplify_eq].
    destruct (split query !! 7%nat); simpl in H; by simplify_eq.
Qed.

(** *** Words *)

Lemma split_from_nospace s : ∀ w, nospace w → Forall nospace (split_from w s).
Proof.
  induction s as [|c r IH]; intros w Hw; simpl.
  - destruct w; [constructor|]. constructor; [done|constructor].
  - destruct (isspace c) eqn:E.
    + destruct w; [apply IH; constructor|].
      constructor; [done|]. apply IH; constructor.
    + apply IH. apply Forall_app; split; [done|]. by repeat constructor.
Qed.

Lemma split_nospace query i token : split query !! i = Some token → nospace token.
Proof.
  intros H. eapply Forall_lookup_1; [|exact H].
  apply split_from_nospace. constructor.
Qed.

Lemma split_from_word x : ∀ w c r,
  nospace x → isspace c = true → w ++ x ≠ [] →
  split_from w (x ++ c :: r) = (w ++ x) :: split_from [] r.
Proof.
  induction x as [|a x IH]; intros w c r Hx Hc Hne; simpl.
  - rewrite Hc. rewrite app_nil_r in *. by destruct w.
  - inversion Hx as [|?? Ha Hx']; subst. rewrite Ha.
    rewrite IH; [by rewrite <- app_assoc|done..|].
    destruct w; done.
Qed.

Lemma nospace_no_LF text : nospace text → LF ∉ text.
Proof.
  intros H Hin. eapply Forall_forall in H; [|exact Hin]. done.
Qed.

(** *** Patterns *)

Lemma strip_prefix_Some p : ∀ s r, strip_prefix p s = Some r ↔ s = p ++ r.
Proof.
  induction p as [|a p IH]; intros s r; simpl.
  - split; intros; by simplify_eq.
  - destruct s as [|b s]; [done|].
    destruct (N.eqb_spec a b) as [->|Hne].
    + rewrite IH. split; intros; by simplify_eq.
    + split; intros; by simplify_eq.
Qed.

Lemma strip_prefix_app p r : strip_prefix p (p ++ r) = Some r.
Proof. by apply strip_prefix_Some. Qed.

Lemma re_plus_lit_inv P L k : ∀ s x,
  re_plus P (re_lit L k) s = Some x →
  ∃ run rest, s = run ++ L ++ rest ∧ run ≠ []
              ∧ Forall (fun c => P c = true) run ∧ k rest = Some x.
Proof.
  induction s as [|c r IH]; intros x; simpl; [done|].
  destruct (P c) eqn:Hc; [|done].
  destruct (re_plus P (re_lit L k) r) as [y|] eqn:E.
  - intros [= <-]. destruct (IH y eq_refl) as (run & rest & -> & _ & Hrun & Hk).
    exists (c :: run), rest. split_and!; [done..| |done]. by constructor.
  - unfold re_lit. destruct (strip_prefix L r) as [rest|] eqn:Es; [|done].
    intros Hk. apply strip_prefix_Some in Es as ->.
    exists [c], rest. split_and!; [done..| |done]. by repeat constructor.
Qed.

Lemma re_plus_lit_None P a L k tail : ∀ name,
  (∃ c, c ∈ name ∧ P c = false) → a ∉ name →
  re_plus P (re_lit (a :: L) k) (name ++ tail) = None.
Proof.
  induction name as [|c name IH]; intros (b & Hb & Hbad) Ha.
  - by apply elem_of_nil in Hb.
  - simpl. destruct (P c) eqn:Hc; [|done].
    apply elem_of_cons in Hb as [->|Hb]; [congruence|].
    apply not_elem_of_cons in Ha as [_ Ha].
    rewrite IH; [|eauto|done].
    destruct name as [|c' name']; [by apply elem_of_nil in Hb|].
    unfold re_lit; simpl. destruct (N.eqb_spec a c') as [->|]; [|done].
    by apply not_elem_of_cons in Ha as [? _].
Qed.

Lemma is_name_char_nospace c : is_name_char c = true → isspace c = false.
Proof. intros H. bool_lia. Qed.

Lemma classify_alter_inv query :
  classify query = AlterTableAddConstraint →
  ∃ run rest, query = ALTER_TABLE_ ++ run ++ _ADD_CONSTRAINT ++ rest
              ∧ run ≠ [] ∧ Forall (fun c => is_name_char c = true) run.
Proof.
  unfold classify.
  destruct (startswith CREATE_TABLE query); [done|].
  destruct (startswith CREATE_INDEX query); [done|].
  destruct (startswith CREATE_UNIQUE_INDEX query); [done|].
  destruct (re_match re_alter_table_add_constraint query) as [x|] eqn:E; [|done].
  intros _. unfold re_match, re_alter_table_add_constraint, re_lit at 1 in E.
  destruct (strip_prefix ALTER_TABLE_ query) as [r|] eqn:Es; [|done].
  apply strip_prefix_Some in Es as ->.
  apply re_plus_lit_inv in E as (run & rest & -> & ? & ? & _). eauto.
Qed.

(** The third word of a recognised ALTER statement is the name the pattern
    matched. *)
Lemma alter_table_name run rest :
  run ≠ [] → Forall (fun c => is_name_char c = true) run →
  split (ALTER_TABLE_ ++ run ++ _ADD_CONSTRAINT ++ rest) !! 2%nat = Some run.
Proof.
  intros Hne Hrun. unfold split, ALTER_TABLE_, _ADD_CONSTRAINT. simpl.
  rewrite split_from_word; [done| |done|done].
  eapply Forall_impl; [exact Hrun|]. apply is_name_char_nospace.
Qed.

Lemma classify_alter_table_name query table_name :
  classify query = AlterTableAddConstraint →
  split query !! 2%nat = Some table_name →
  Forall (fun c => is_name_char c = true) table_name.
Proof.
  intros (run & rest & -> & Hne & Hrun)%classify_alter_inv.
  rewrite alter_table_name by done. by intros [= <-].
Qed.

Lemma re_star_dot_one P text :
  LF ∉ text →
  is_Some (re_star dot (re_one P Some) text) ↔ ∃ c, c ∈ text ∧ P c = true.
Proof.
  induction text as [|c r IH]; intros HLF; simpl.
  - split; [by intros [? ?]|]. intros (c & Hc & _). by apply elem_of_nil in Hc.
  - assert (dot c = true) as -> by (apply not_elem_of_cons in HLF as [? _]; bool_lia).
    apply not_elem_of_cons in HLF as [_ HLF]. specialize (IH HLF).
    destruct (re_star dot (re_one P Some) r) as [x|] eqn:E.
    + split; [|eauto]. intros _. destruct IH as [IH _].
      destruct (IH (mk_is_Some _ _ eq_refl)) as (c' & ? & ?).
      exists c'. split; [apply elem_of_cons; by right|done].
    + destruct (P c) eqn:Hc.
      * split; [|eauto]. intros _. exists c. split; [apply elem_of_cons; by left|done].
      * split; [by intros [? ?]|]. intros (c' & [->|Hin]%elem_of_cons & Hc').
        -- congruence.
        -- destruct IH as [_ IH]. destruct IH as [? ?]; [eauto|done].
Qed.

Lemma re_star_dot_eos text : LF ∉ text → is_Some (re_star dot (re_eos Some) text).
Proof.
  induction text as [|c r IH]; intros HLF; simpl; [eauto|].
  apply not_elem_of_cons in HLF as [Hc HLF].
  assert (dot c = true) as -> by bool_lia.
  destruct (IH HLF) as [x ->]. eauto.
Qed.

(** On a text without line feed, the pattern of the case check holds when
    the text has a letter of [a-z] and a letter of [A-Z]. *)
Lemma re_mixed_case_spec text :
  LF ∉ text →
  is_Some (re_match re_mixed_case text) ↔ has_lower text ∧ has_upper text.
Proof.
  intros HLF. unfold re_match, re_mixed_case, re_lookahead, has_lower, has_upper.
  rewrite <- !(re_star_dot_one _ text HLF).
  destruct (re_star dot (re_one is_lower Some) text);
    [|split; [by intros [? ?]|by intros [[? ?] _]]].
  destruct (re_star dot (re_one is_upper Some) text);
    [|split; [by intros [? ?]|by intros [_ [? ?]]]].
  split; [eauto|]. intros _. by apply re_star_dot_eos.
Qed.

Lemma _check_mix_upper_lower_case_text_false text :
  LF ∉ text →
  _check_mix_upper_lower_case_text text = false ↔
  has_lower text ∧ has_upper text ∧ wrapped_in_quotes text = false.
Proof.
  intros HLF. unfold _check_mix_upper_lower_case_text.
  pose proof (re_mixed_case_spec text HLF) as Hre.
  destruct (re_match re_mixed_case text) as [x|].
  - destruct Hre as [Hre _]. destruct (Hre (mk_is_Some _ _ eq_refl)).
    destruct (wrapped_in_quotes text); simpl; [|done].
    split; [done|]. by intros (_ & _ & ?).
  - split; [done|]. intros (? & ? & _).
    destruct Hre as [_ Hre]. destruct Hre as [? ?]; done.
Qed.

(** *** The shape of the messages *)

Lemma msg_missing_primary_key_last table_name :
  last (msg_missing_primary_key table_name) = Some 12435.
Proof. last_char. reflexivity. Qed.

Lemma statement_message_not_missing m table_name :
  statement_message m → m ≠ msg_missing_primary_key table_name.
Proof.
  intros Hm ->. unfold statement_message in Hm.
  rewrite msg_missing_primary_key_last in Hm. by destruct Hm.
Qed.

Lemma table_diagnostics_shape t : Forall statement_message (table_diagnostics t).
Proof.
  unfold table_diagnostics. case_match; [|constructor].
  apply Forall_singleton. last_char. by left.
Qed.

Lemma index_diagnostics_shape n : Forall statement_message (index_diagnostics n).
Proof.
  unfold index_diagnostics.
  apply Forall_app; split; (case_match; [|constructor]);
    apply Forall_singleton; last_char; by left.
Qed.

Lemma identifier_diagnostics_shape n :
  Forall statement_message (identifier_diagnostics n).
Proof.
  unfold identifier_diagnostics.
  apply Forall_app; split; (case_match; [|constructor]);
    apply Forall_singleton; last_char; by left.
Qed.

Lemma msg_alter_order_shape t : statement_message (msg_alter_order t).
Proof. last_char. by right. Qed.

Lemma msg_missing_primary_key_inj t1 t2 :
  msg_missing_primary_key t1 = msg_missing_primary_key t2 → t1 = t2.
Proof. unfold msg_missing_primary_key. apply app_inv_tail. Qed.

(** *** One statement *)

(** What a statement does to the checker: it appends messages of statements,
    an entry of the set stays unless the statement adds its primary key, and
    an entry comes only from a CREATE TABLE without PRIMARY KEY. *)
Lemma check_query_inv self query self' :
  check_query self query = Ok self' →
  ∃ d names,
    self' = set_pending names (extend d self)
    ∧ Forall statement_message d
    ∧ (∀ t, t ∈ _no_primary_key_table_names self →
            ¬ adds_primary_key t query → t ∈ names)
    ∧ (∀ t, creates_without_primary_key t query → t ∈ names)
    ∧ (∀ t, t ∈ names →
            t ∈ _no_primary_key_table_names self
            ∨ creates_without_primary_key t query).
Proof.
  unfold check_query. destruct (classify query) eqn:Hk.
  - intros H. destruct (split query !! 2%nat) as [t|] eqn:H2;
      [|by unfold _check_create_table_query, getitem in H; rewrite H2 in H].
    rewrite (_check_create_table_query_Ok _ _ t) in H by done.
    injection H as <-. exists (table_diagnostics t).
    destruct (contains PRIMARY_KEY query) eqn:Hpk.
    + exists (_no_primary_key_table_names self).
      split_and!; [by destruct self|apply table_diagnostics_shape|done| |by left].
      intros t' (_ & _ & ?); congruence.
    + exists ({[t]} ∪ _no_primary_key_table_names self).
      split_and!; [done|apply table_diagnostics_shape|..].
      * intros; set_solver.
      * intros t' (_ & ? & _). simplify_eq. set_solver.
      * intros t' [->%elem_of_singleton|?]%elem_of_union; [right|by left].
        done.
  - intros H. destruct (split query !! 2%nat) as [t|] eqn:H2;
      [|by unfold _check_create_index_query, getitem in H; rewrite H2 in H].
    rewrite (_check_create_index_query_Ok _ _ false t) in H by done.
    injection H as <-.
    exists (index_diagnostics t), (_no_primary_key_table_names self).
    split_and!; [done|apply index_diagnostics_shape|done| |by left].
    intros t' (? & _); congruence.
  - intros H. destruct (split query !! 3%nat) as [t|] eqn:H3.
    2:{ unfold _check_create_index_query, getitem in H. rewrite H3 in H.
        by destruct (split query !! 2%nat). }
    rewrite (_check_create_index_query_Ok _ _ true t) in H by done.
    injection H as <-.
    exists (index_diagnostics t), (_no_primary_key_table_names self).
    split_and!; [done|apply index_diagnostics_shape|done| |by left].
    intros t' (? & _); congruence.
  - intros H.
    destruct (_check_alter_table_add_constraint_query_inv _ _ _ H)
      as (t & ident & H2 & H5 & [[H6 H7]|[Hno ->]]).
    + rewrite (_check_alter_table_add_constraint_query_primary_key _ _ t ident)
        in H by done.
      injection H as <-. case_bool_decide as Hin.
      * exists (identifier_diagnostics ident),
          (_no_primary_key_table_names self ∖ {[t]}).
        split_and!; [done|apply identifier_diagnostics_shape|..].
        -- intros t' Ht' Hadd. apply elem_of_difference. split; [done|].
           intros ->%elem_of_singleton. by apply Hadd.
        -- intros t' (? & _); congruence.
        -- intros t' [? _]%elem_of_difference. by left.
      * exists (identifier_diagnostics ident ++ [msg_alter_order t]),
          (_no_primary_key_table_names self).
        split_and!; [done| |done| |by left].
        -- apply Forall_app; split; [apply identifier_diagnostics_shape|].
           apply Forall_singleton, msg_alter_order_shape.
        -- intros t' (? & _); congruence.
    + exists (identifier_diagnostics ident), (_no_primary_key_table_names self).
      split_and!; [done|apply identifier_diagnostics_shape|done| |by left].
      intros t' (? & _); congruence.
  - intros [= <-]. exists [], (_no_primary_key_table_names self).
    split_and!; [by rewrite extend_nil; destruct self|constructor|done| |by left].
    intros t' (? & _); congruence.
Qed.

(** *** The loop over the statements *)

Lemma check_queries_run queries : ∀ self self',
  check_queries self queries = Ok self' → ∃ ds, run self queries ds self'.
Proof.
  induction queries as [|query queries IH]; intros self self'; simpl.
  - intros [= <-]. exists []. constructor.
  - destruct (check_query self query) as [self1|] eqn:E; [|done]. simpl.
    intros (ds & Hrun)%IH.
    destruct (check_query_inv _ _ _ E) as (d & names & -> & _).
    exists (d :: ds). econstructor; [exact E|done|done].
Qed.

Lemma run_check_queries self queries ds self' :
  run self queries ds self' → check_queries self queries = Ok self'.
Proof. induction 1 as [|?????? self' E _ _ IH]; simpl; [done|]. by rewrite E. Qed.

Lemma run_messages self queries ds self' :
  run self queries ds self' →
  messages self' = messages self ++ concat ds ∧ length ds = length queries.
Proof.
  induction 1 as [|?????? self' _ Hd _ [IH1 IH2]]; simpl.
  - by rewrite app_nil_r.
  - rewrite IH1, Hd, app_assoc. auto.
Qed.

Lemma check_queries_app q1 : ∀ q2 self,
  check_queries self (q1 ++ q2) =
    self1 ← check_queries self q1; check_queries self1 q2.
Proof.
  induction q1 as [|q q1 IH]; intros q2 self; simpl; [done|].
  destruct (check_query self q); simpl; [apply IH|done].
Qed.

Lemma check_queries_messages queries : ∀ self self',
  check_queries self queries = Ok self' →
  ∃ d, messages self' = messages self ++ d ∧ Forall statement_message d.
Proof.
  induction queries as [|query queries IH]; intros self self'; simpl.
  - intros [= <-]. exists []. by rewrite app_nil_r.
  - destruct (check_query self query) as [self1|] eqn:E; [|done]. simpl.
    intros (d2 & Hd2 & ?)%IH.
    destruct (check_query_inv _ _ _ E) as (d1 & names & -> & ? & _).
    exists (d1 ++ d2). rewrite Hd2. simpl. rewrite app_assoc.
    split; [done|]. by apply Forall_app.
Qed.

(** An entry stays in the set as long as no statement adds its primary key. *)
Lemma check_queries_keep t queries : ∀ self self',
  check_queries self queries = Ok self' →
  t ∈ _no_primary_key_table_names self →
  Forall (fun query => ¬ adds_primary_key t query) queries →
  t ∈ _no_primary_key_table_names self'.
Proof.
  induction queries as [|query queries IH]; intros self self'; simpl.
  - by intros [= <-].
  - destruct (check_query self query) as [self1|] eqn:E; [|done]. simpl.
    intros Hrest Hin [Hq Hqs]%Forall_cons. eapply IH; [exact Hrest| |done].
    destruct (check_query_inv _ _ _ E) as (d & names & -> & _ & Hkeep & _).
    simpl. by apply Hkeep.
Qed.

Lemma foldl_append f l : ∀ self,
  foldl (fun self (t : str) => append (f t) self) self l = extend (f <$> l) self.
Proof.
  induction l as [|t l IH]; intros self; simpl; [by rewrite extend_nil|].
  by rewrite IH, append_extend, extend_extend.
Qed.

Lemma _check_ddl_syntax_Ok set_iter self self1 :
  check_queries self (statements (_ddl self)) = Ok self1 →
  _check_ddl_syntax set_iter self =
    Ok (extend (msg_missing_primary_key
                  <$> set_iter (_no_primary_key_table_names self1)) self1).
Proof. intros H. unfold _check_ddl_syntax. rewrite H. simpl. by rewrite foldl_append. Qed.

Lemma _check_ddl_syntax_inv set_iter self self' :
  _check_ddl_syntax set_iter self = Ok self' →
  ∃ self1, check_queries self (statements (_ddl self)) = Ok self1
           ∧ self' = extend (msg_missing_primary_key
                               <$> set_iter (_no_primary_key_table_names self1))
                       self1.
Proof.
  unfold _check_ddl_syntax.
  destruct (check_queries self (statements (_ddl self))) as [self1|]; [|done].
  simpl. rewrite foldl_append. intros [= <-]. eauto.
Qed.

(** *** The execution phase *)

Lemma split_from_length_acc t : ∀ w w',
  w ≠ [] → w' ≠ [] → length (split_from w t) = length (split_from w' t).
Proof.
  induction t as [|c r IH]; intros w w' Hw Hw'; simpl.
  - by destruct w, w'.
  - destruct (isspace c); [by destruct w, w'|].
    apply IH; by intros [? ?]%app_eq_nil.
Qed.

Lemma split_from_length_pos t w : w ≠ [] → (1 ≤ length (split_from w t))%nat.
Proof.
  revert w. induction t as [|c r IH]; intros w Hw; simpl.
  - destruct w; [done|simpl; lia].
  - destruct (isspace c); [destruct w; [done|simpl; lia]|].
    apply IH. by intros [? ?]%app_eq_nil.
Qed.

Lemma split_from_length_mono t w :
  (length (split_from [] t) ≤ length (split_from w t))%nat.
Proof.
  destruct t as [|c r]; simpl; [lia|].
  destruct (isspace c); [destruct w; simpl; lia|].
  destruct w as [|a w]; [done|].
  erewrite (split_from_length_acc r); [done|done|]. by intros [? ?]%app_eq_nil.
Qed.

Lemma split_from_app_length s : ∀ w t,
  (length (split_from [] t) ≤ length (split_from w (s ++ t)))%nat.
Proof.
  induction s as [|c s IH]; intros w t; simpl; [apply split_from_length_mono|].
  destruct (isspace c); [|apply IH].
  destruct w; [apply IH|]. simpl. specialize (IH [] t). lia.
Qed.

Lemma re_search_inv p : ∀ s group,
  re_search p s = Some group →
  ∃ s' rest, p Some s' = Some rest
             ∧ group = take (length s' - length rest) s'.
Proof.
  induction s as [|c s IH]; intros group; simpl.
  - destruct (p Some []) as [rest|] eqn:E; [|done]. intros [= <-]. eauto.
  - destruct (p Some (c :: s)) as [rest|] eqn:E; [intros [= <-]; eauto|].
    apply IH.
Qed.

(** The text the pattern of the partition error matches has nine words or
    more: the two words the source takes from it are there. *)
Lemma re_partition_error_words s rest :
  re_partition_error Some s = Some rest →
  (9 ≤ length (split (take (length s - length rest) s)))%nat.
Proof.
  unfold re_partition_error, re_lit at 1.
  destruct (strip_prefix _ s) as [r1|] eqn:E1; [|done].
  apply strip_prefix_Some in E1 as ->.
  intros (x & r2 & -> & _ & _ & H)%re_plus_lit_inv.
  apply re_plus_lit_inv in H as (y & r3 & -> & _ & _ & H).
  destruct r3 as [|c r4]; [done|]. simpl in H.
  destruct (dot c); [|done]. injection H as <-.
  set (L3 := [DQUOTE] ++ u " which is part of the partition key").
  set (L1 := u "primary key constraint on table " ++ [DQUOTE]).
  set (L2 := [DQUOTE] ++ u " lacks column " ++ [DQUOTE]).
  replace (L1 ++ x ++ L2 ++ y ++ L3 ++ c :: r4)
    with ((L1 ++ x ++ L2 ++ y ++ L3 ++ [c]) ++ r4)
    by (by rewrite <- !app_assoc).
  rewrite length_app, Nat.add_sub, take_app_length.
  generalize (y ++ L3 ++ [c]). intros tail. clear L3.
  subst L1 L2.
  repeat match goal with
         | |- context [u ?s] =>
           let v := eval vm_compute in (u s) in change (u s) with v
         end.
  unfold split, DQUOTE. simpl.
  pose proof (split_from_app_length x [34] (34 :: 32 :: 108 :: 97 :: 99 :: 107
    :: 115 :: 32 :: 99 :: 111 :: 108 :: 117 :: 109 :: 110 :: 32 :: 34 :: tail))
    as Hx.
  simpl in Hx.
  pose proof (split_from_length_pos tail [34] ltac:(done)) as Hy. lia.
Qed.

Lemma _parse_partition_error_text_Ok text group :
  re_search re_partition_error text = Some group →
  ∃ table_name partition_column_name, ∀ self,
    _parse_partition_error_text self group
    = Ok (append (msg_partition table_name partition_column_name) self).
Proof.
  intros (s' & rest & Hm & ->)%re_search_inv.
  apply re_partition_error_words in Hm.
  destruct (lookup_lt_is_Some_2 (split (take (length s' - length rest) s')) 5)
    as [t5 H5]; [lia|].
  destruct (lookup_lt_is_Some_2 (split (take (length s' - length rest) s')) 8)
    as [t8 H8]; [lia|].
  exists t5, t8. intros self.
  unfold _parse_partition_error_text, getitem. by rewrite H5, H8.
Qed.

(** The execution phase ends as soon as a turn is not retried, and it
    appends one message at most. *)
Lemma _execute_ddl_total lower attempts :
  (∃ a, a ∈ attempts ∧ a ≠ RaisedOperationalError) →
  ∃ execution,
    (length execution ≤ 1)%nat
    ∧ ∀ self, _execute_ddl lower attempts self = Some (Ok (extend execution self)).
Proof.
  induction attempts as [|a attempts IH]; intros (b & Hb & Hne).
  - by apply elem_of_nil in Hb.
  - destruct a as [| |original_error]; simpl.
    + exists []. split; [simpl; lia|]. intros self. by rewrite extend_nil.
    + apply IH. exists b. split; [|done].
      by apply elem_of_cons in Hb as [->|Hb].
    + destruct (re_search re_partition_error (lower original_error))
        as [group|] eqn:E.
      * destruct (_parse_partition_error_text_Ok _ _ E) as (t & c & Hp).
        exists [msg_partition t c]. split; [simpl; lia|]. intros self.
        by rewrite Hp.
      * exists [lower original_error]. split; [simpl; lia|]. done.
Qed.

(** *** Counting the messages of missing primary keys *)

Lemma occurrences_app m l1 l2 :
  occurrences m (l1 ++ l2) = (occurrences m l1 + occurrences m l2)%nat.
Proof. unfold occurrences. by rewrite filter_app, length_app. Qed.

Lemma occurrences_statement_messages t d :
  Forall statement_message d → occurrences (msg_missing_primary_key t) d = 0%nat.
Proof.
  unfold occurrences. induction 1 as [|m d Hm _ IH]; [done|].
  rewrite filter_cons_False; [done|].
  by apply statement_message_not_missing.
Qed.

Lemma occurrences_missing t l :
  NoDup l →
  occurrences (msg_missing_primary_key t) (msg_missing_primary_key <$> l)
  = if decide (t ∈ l) then 1%nat else 0%nat.
Proof.
  unfold occurrences. induction 1 as [|x l Hx Hl IH].
  - by rewrite decide_False by apply not_elem_of_nil.
  - rewrite fmap_cons. destruct (decide (x = t)) as [->|Hne].
    + rewrite filter_cons_True by done. simpl. rewrite IH.
      rewrite decide_False by done.
      rewrite decide_True; [done|]. apply elem_of_cons; by left.
    + rewrite filter_cons_False
        by (intros ?%msg_missing_primary_key_inj; done).
      rewrite IH. repeat case_decide; try done.
      * exfalso. match goal with H : ¬ _ |- _ => apply H end.
        apply elem_of_cons; by right.
      * match goal with H : t ∈ _ :: _ |- _ =>
          apply elem_of_cons in H as [->|?]; done end.
Qed.

Section set_iter.

Variable set_iter : gset str → list str.
Hypothesis set_iter_perm : ∀ s, set_iter s ≡ₚ elements s.

Lemma set_iter_NoDup s : NoDup (set_iter s).
Proof. rewrite set_iter_perm. apply NoDup_elements. Qed.

Lemma elem_of_set_iter t s : t ∈ set_iter s ↔ t ∈ s.
Proof. rewrite set_iter_perm. apply elem_of_elements. Qed.

Lemma set_iter_empty : set_iter ∅ = [].
Proof.
  apply Permutation_nil_r. rewrite set_iter_perm. by rewrite elements_empty.
Qed.

(** After the static check, the message of a missing primary key of [t]
    is there once when [t] is left in the set and not at all otherwise. *)
Lemma _check_ddl_syntax_occurrences self self1 self' t :
  messages self = [] →
  check_queries self (statements (_ddl self)) = Ok self1 →
  _check_ddl_syntax set_iter self = Ok self' →
  occurrences (msg_missing_primary_key t) (messages self')
  = if decide (t ∈ _no_primary_key_table_names self1) then 1%nat else 0%nat.
Proof.
  intros Hnil Hloop. rewrite (_check_ddl_syntax_Ok _ _ _ Hloop).
  intros [= <-]. simpl.
  destruct (check_queries_messages _ _ _ Hloop) as (d & -> & Hd).
  rewrite Hnil. simpl. rewrite occurrences_app.
  rewrite occurrences_statement_messages by done.
  rewrite occurrences_missing by apply set_iter_NoDup. simpl.
  repeat case_decide; try done; exfalso;
    match goal with H : ¬ _ |- _ => apply H end; by apply elem_of_set_iter.
Qed.

End set_iter.

(** *** The splitter *)

Lemma split_on_no_sep sep s : Forall (fun piece => sep ∉ piece) (split_on sep s).
Proof.
  induction s as [|c r IH]; simpl.
  - repeat constructor. apply not_elem_of_nil.
  - destruct (N.eqb_spec c sep) as [->|Hne].
    + constructor; [apply not_elem_of_nil|done].
    + destruct (split_on sep r) as [|h t]; inversion IH; subst.
      * repeat constructor. apply not_elem_of_cons. split; [done|].
        apply not_elem_of_nil.
      * constructor; [|done]. apply not_elem_of_cons. split; [done|done].
Qed.

Lemma split_on_not_nil sep s : split_on sep s ≠ [].
Proof.
  destruct s as [|c r]; simpl; [done|].
  destruct (c =? sep); [done|]. by destruct (split_on sep r).
Qed.

Lemma join_split_on sep s : join [sep] (split_on sep s) = s.
Proof.
  induction s as [|c r IH]; simpl; [done|].
  destruct (N.eqb_spec c sep) as [->|Hne].
  - pose proof (split_on_not_nil sep r).
    destruct (split_on sep r) as [|h t]; [done|]. simpl in *. by rewrite IH.
  - destruct (split_on sep r) as [|h t] eqn:E; [by apply split_on_not_nil in E|].
    destruct t; simpl in *; by rewrite <- IH.
Qed.

Lemma sub_double_newline_cons c r :
  c ≠ LF → sub_double_newline (c :: r) = c :: sub_double_newline r.
Proof.
  intros Hc. simpl. destruct r as [|c' r']; [done|].
  destruct (N.eqb_spec c LF); [done|]. done.
Qed.

Lemma sub_double_newline_LF_LF r :
  sub_double_newline (LF :: LF :: r) = sub_double_newline r.
Proof. reflexivity. Qed.

Lemma sub_double_newline_LF c r :
  c ≠ LF → sub_double_newline (LF :: c :: r) = LF :: c :: sub_double_newline r.
Proof.
  intros Hc.
  change (sub_double_newline (LF :: c :: r))
    with (if (LF =? LF) && (c =? LF) then sub_double_newline r
          else LF :: sub_double_newline (c :: r)).
  rewrite (proj2 (N.eqb_neq c LF)) by done. rewrite andb_false_r.
  by rewrite sub_double_newline_cons.
Qed.

Lemma contains_cons p c s :
  contains p (c :: s) = startswith p (c :: s) || contains p s.
Proof. reflexivity. Qed.

(** No pair of line feeds is left. *)
Lemma sub_double_newline_no_pair n : ∀ s,
  (length s ≤ n)%nat → contains [LF; LF] (sub_double_newline s) = false.
Proof.
  induction n as [|n IH]; intros s Hn.
  - by destruct s; [|simpl in Hn; lia].
  - destruct s as [|c r]; [done|]. simpl in Hn.
    destruct (decide (c = LF)) as [->|Hc].
    + destruct r as [|c' r']; [done|]. simpl in Hn.
      destruct (decide (c' = LF)) as [->|Hc'].
      * rewrite sub_double_newline_LF_LF. apply IH. lia.
      * rewrite sub_double_newline_LF by done. rewrite contains_cons.
        rewrite <- (sub_double_newline_cons c') by done.
        rewrite IH by (simpl; lia).
        rewrite (sub_double_newline_cons c') by done. cbn [startswith].
        by rewrite (proj2 (N.eqb_neq LF c')) by done.
    + rewrite sub_double_newline_cons by done. rewrite contains_cons.
      rewrite IH by lia. cbn [startswith].
      by rewrite (proj2 (N.eqb_neq LF c)) by done.
Qed.

(** * The claims *)

(** ** C1 *)

(** C1, as stated, fails on its own document: the statements are separated
    by a semicolon and a space, the splitter does not trim, so the second
    statement starts with a space, is not recognised, and the message of the
    missing primary key of t is in the final list. *)
Lemma create_alter_with_space_missing_primary_key :
  statements create_alter_with_space = [create_t; [SPACE] ++ alter_t; []]
  ∧ classify ([SPACE] ++ alter_t) = Unrecognized
  ∧ messages <$> _check_ddl_syntax elements (init create_alter_with_space)
    = Ok [msg_missing_primary_key (u "t")].
Proof. vm_compute. done. Qed.

(** C1, amended: a recognised ALTER TABLE ... ADD CONSTRAINT statement whose
    seventh and eighth words are PRIMARY KEY removes the table of its third
    word from the set when it is there, and appends the message of the
    ordering otherwise (after the messages of the identifier).  For the
    document of the example with the ALTER statement right after the
    semicolon, or after a semicolon and an empty line, the set gets t and
    loses it, and the final list is empty. *)
Theorem alter_primary_key_satisfaction
    (set_iter : gset str → list str) (self : DdlChecker)
    (query table_name identifier : str) :
  (∀ s, set_iter s ≡ₚ elements s) →
  classify query = AlterTableAddConstraint →
  split query !! 2%nat = Some table_name →
  split query !! 5%nat = Some identifier →
  split query !! 6%nat = Some PRIMARY →
  split query !! 7%nat = Some KEY →
  check_query self query
  = Ok (if bool_decide (table_name ∈ _no_primary_key_table_names self)
        then set_pending (_no_primary_key_table_names self ∖ {[table_name]})
               (extend (identifier_diagnostics identifier) self)
        else extend (identifier_diagnostics identifier
                       ++ [msg_alter_order table_name]) self)
  ∧ Forall (fun sep =>
      let ddl := create_alter sep in
      statements ddl = [create_t; alter_t; []]
      ∧ ∃ self1 self2,
          check_query (init ddl) create_t = Ok self1
          ∧ _no_primary_key_table_names self1 = {[u "t"]}
          ∧ check_query self1 alter_t = Ok self2
          ∧ _no_primary_key_table_names self2 = ∅
          ∧ messages <$> _check_ddl_syntax set_iter (init ddl) = Ok [])
      [[]; [LF; LF]].
Proof.
  intros Hperm Hk H2 H5 H6 H7. split.
  - unfold check_query. rewrite Hk.
    by apply _check_alter_table_add_constraint_query_primary_key.
  - repeat apply Forall_cons_2; [| |constructor].
    all: split; [by vm_compute|].
    all: eexists _, _; split_and!; [by vm_compute..|].
    all: match goal with
         | |- context [_check_ddl_syntax _ ?self] =>
           rewrite (_check_ddl_syntax_Ok set_iter self self) by (by vm_compute)
         end.
    all: cbn [init _no_primary_key_table_names].
    all: rewrite (set_iter_empty _ Hperm); reflexivity.
Qed.

Lemma alter_primary_key_satisfaction_witness :
  check_query (set_pending {[u "t"]} (init (create_alter []))) alter_t
  = Ok (init (create_alter [])).
Proof.
  pose proof (alter_primary_key_satisfaction elements
    (set_pending {[u "t"]} (init (create_alter []))) alter_t
    (u "t") (u "t_pk") ltac:(done) ltac:(by vm_compute) ltac:(by vm_compute)
    ltac:(by vm_compute) ltac:(by vm_compute) ltac:(by vm_compute)) as [H _].
  rewrite H. by vm_compute.
Defined.

(** ** C2 *)

(** C2, as stated, fails: the second statement of this document is a CREATE
    TABLE of t without PRIMARY KEY and nothing follows it, but it comes after
    a semicolon and a line feed, the splitter does not trim, the statement
    is not recognised, and no message of a missing primary key is in the
    final list. *)
Lemma create_after_line_feed_no_message :
  statements create_after_line_feed
  = [u "CREATE TABLE a (id int, PRIMARY KEY (id))"; [LF] ++ create_t; [LF]]
  ∧ contains PRIMARY_KEY ([LF] ++ create_t) = false
  ∧ classify ([LF] ++ create_t) = Unrecognized
  ∧ classify create_t = CreateTable
  ∧ messages <$> _check_ddl_syntax elements (init create_after_line_feed)
    = Ok []
  ∧ occurrences (msg_missing_primary_key (u "t")) ∘ messages
      <$> _check_ddl_syntax elements (init create_after_line_feed)
    = Ok 0%nat.
Proof. by vm_compute. Qed.

(** C2, amended: when the static check ends, the message of the missing
    primary key of a table is in the final list once if the table is left
    in the set after the loop, and not at all otherwise; so a statement the
    loop recognises as CREATE TABLE (its text, as the splitter cuts it,
    starts with CREATE TABLE), without PRIMARY KEY, that no later recognised
    statement of the document completes with ALTER TABLE ... ADD CONSTRAINT
    ... PRIMARY KEY, has the message of its third word once. *)
Theorem missing_primary_key_completeness
    (set_iter : gset str → list str) (ddl : str) (self' : DdlChecker) :
  (∀ s, set_iter s ≡ₚ elements s) →
  _check_ddl_syntax set_iter (init ddl) = Ok self' →
  ∃ self1,
    check_queries (init ddl) (statements ddl) = Ok self1
    ∧ (∀ t, occurrences (msg_missing_primary_key t) (messages self')
            = if decide (t ∈ _no_primary_key_table_names self1)
              then 1%nat else 0%nat)
    ∧ (∀ i create t,
         statements ddl !! i = Some create →
         creates_without_primary_key t create →
         Forall (fun query => ¬ adds_primary_key t query)
           (drop (S i) (statements ddl)) →
         occurrences (msg_missing_primary_key t) (messages self') = 1%nat).
Proof.
  intros Hperm H.
  destruct (_check_ddl_syntax_inv _ _ _ H) as (self1 & Hloop & _).
  exists self1. split; [done|].
  assert (∀ t, occurrences (msg_missing_primary_key t) (messages self')
               = if decide (t ∈ _no_primary_key_table_names self1)
                 then 1%nat else 0%nat) as Hocc.
  { intros t.
    exact (_check_ddl_syntax_occurrences set_iter Hperm (init ddl) self1 self'
             t eq_refl Hloop H). }
  split; [done|]. intros i create t Hi Hcreate Hlater.
  rewrite Hocc. rewrite decide_True; [done|].
  simpl in Hloop.
  rewrite <- (take_drop_middle _ _ _ Hi), check_queries_app in Hloop.
  destruct (check_queries (init ddl) (take i (statements ddl)))
    as [self0|]; [|done].
  simpl in Hloop.
  destruct (check_query self0 create) as [self0'|] eqn:E; [|done].
  simpl in Hloop. eapply check_queries_keep; [exact Hloop| |done].
  destruct (check_query_inv _ _ _ E) as (d & names & -> & _ & _ & Hnew & _).
  simpl. by apply Hnew.
Qed.

Lemma missing_primary_key_completeness_witness :
  ∃ self',
    _check_ddl_syntax elements (init (create_t ++ [SEMICOLON])) = Ok self'
    ∧ occurrences (msg_missing_primary_key (u "t")) (messages self') = 1%nat.
Proof.
  exists (extend [msg_missing_primary_key (u "t")]
            (set_pending {[u "t"]} (init (create_t ++ [SEMICOLON])))).
  assert (_check_ddl_syntax elements (init (create_t ++ [SEMICOLON]))
          = Ok (extend [msg_missing_primary_key (u "t")]
                  (set_pending {[u "t"]} (init (create_t ++ [SEMICOLON])))))
    as Hrun by (by vm_compute).
  split; [exact Hrun|].
  destruct (missing_primary_key_completeness elements
              (create_t ++ [SEMICOLON]) _ ltac:(done) Hrun)
    as (self1 & _ & _ & H).
  apply (H 0%nat create_t (u "t")); [by vm_compute| |].
  - split_and!; by vm_compute.
  - apply Forall_singleton. intros (Hk & _). by vm_compute in Hk.
Defined.

(** ** C3 *)

(** C3: a CREATE TABLE statement adds its third word to the set when
    PRIMARY KEY is not in the statement, and leaves the set as it is when it
    is; along the document of the example the set stays empty. *)
Theorem create_table_pending_insertion
    (self : DdlChecker) (query table_name : str) :
  classify query = CreateTable →
  split query !! 2%nat = Some table_name →
  (∃ self',
     check_query self query = Ok self'
     ∧ _no_primary_key_table_names self'
       = if contains PRIMARY_KEY query
         then _no_primary_key_table_names self
         else {[table_name]} ∪ _no_primary_key_table_names self)
  ∧ (classify (u "CREATE TABLE t (id int, PRIMARY KEY (id))") = CreateTable
     ∧ ∀ n self',
         check_queries (init create_with_primary_key)
           (take n (statements create_with_primary_key)) = Ok self' →
         _no_primary_key_table_names self' = ∅).
Proof.
  intros Hk H2. split.
  - unfold check_query. rewrite Hk.
    rewrite (_check_create_table_query_Ok _ _ table_name) by done.
    eexists. split; [done|]. by destruct (contains PRIMARY_KEY query).
  - split; [by vm_compute|]. intros n self'.
    destruct n as [|[|n]].
    + by intros [= <-].
    + vm_compute. by intros [= <-].
    + change (statements create_with_primary_key)
        with [u "CREATE TABLE t (id int, PRIMARY KEY (id))"; []].
      destruct n; vm_compute; by intros [= <-].
Qed.

Lemma create_table_pending_insertion_witness :
  ∃ self', check_query (init create_t) create_t = Ok self'
           ∧ _no_primary_key_table_names self' = {[u "t"]} ∪ ∅.
Proof.
  apply (create_table_pending_insertion (init create_t) create_t (u "t"));
    by vm_compute.
Defined.

(** ** C4 *)

(** C4, as stated, fails: the statements are not trimmed and the empty text
    after the last semicolon is not discarded.  The second statement of the
    document keeps its space and is not recognised, while the same text
    without the space is; a pair of line feeds inside a statement is deleted,
    not made one. *)
Lemma statements_not_trimmed :
  statements create_alter_with_space = [create_t; [SPACE] ++ alter_t; []]
  ∧ classify ([SPACE] ++ alter_t) = Unrecognized
  ∧ classify alter_t = AlterTableAddConstraint
  ∧ statements (u "CREATE TABLE t" ++ [LF; LF] ++ u "(id int)")
    = [u "CREATE TABLE t(id int)"].
Proof. by vm_compute. Qed.

(** C4, amended: the splitter deletes every pair of line feeds, so that no
    pair is left, and cuts the result at the semicolons: the statements,
    joined with semicolons, are the text without the pairs of line feeds, and
    no statement has a semicolon, so nothing is trimmed or discarded; a
    statement that is not recognised leaves the checker as it is, with no
    message. *)
Theorem statements_split (ddl : str) (self : DdlChecker) (query : str) :
  classify query = Unrecognized →
  contains [LF; LF] (sub_double_newline ddl) = false
  ∧ join [SEMICOLON] (statements ddl) = sub_double_newline ddl
  ∧ Forall (fun statement => SEMICOLON ∉ statement) (statements ddl)
  ∧ check_query self query = Ok self.
Proof.
  intros Hk. split_and!.
  - by apply (sub_double_newline_no_pair (length ddl)).
  - apply join_split_on.
  - apply split_on_no_sep.
  - unfold check_query. by rewrite Hk.
Qed.

Lemma statements_split_witness :
  join [SEMICOLON] (statements create_alter_with_space) = create_alter_with_space
  ∧ check_query (init create_alter_with_space) ([SPACE] ++ alter_t)
    = Ok (init create_alter_with_space).
Proof.
  destruct (statements_split create_alter_with_space
              (init create_alter_with_space) ([SPACE] ++ alter_t)
              ltac:(by vm_compute)) as (_ & H1 & _ & H2).
  split; [|exact H2]. rewrite H1. by vm_compute.
Defined.

(** ** C5 *)

(** C5: the length of a name is to be taken without its double quotes.
    The checks of the table name and of the index name compare the length of
    the word, double quotes and all, with 63, while the check of the
    identifier of a constraint takes the double quotes out first.  A name of
    62 letters in double quotes has the message of the length as a table name
    and as an index name, and has none as the identifier of a constraint. *)
Theorem name_length_counts_quotes :
  let name := [DQUOTE] ++ replicate 62 97 ++ [DQUOTE] in
  len (sub_quote name) = 62%nat
  ∧ len name = 64%nat
  ∧ (∀ self,
       _check_create_table_query self
         (u "CREATE TABLE " ++ name ++ u " (id int PRIMARY KEY)")
       = Ok (append (msg_table_length name) self))
  ∧ (∀ self,
       _check_create_index_query self
         (u "CREATE INDEX " ++ name ++ u " ON t (id)") false
       = Ok (append (msg_index_length name) self))
  ∧ (∀ self,
       _check_alter_table_add_constraint_query self
         (u "ALTER TABLE t ADD CONSTRAINT " ++ name ++ u " UNIQUE (id)")
       = Ok self).
Proof.
  intros name. split_and!; [by vm_compute..| | |]; intros self.
  - rewrite (_check_create_table_query_Ok _ _ name) by (by vm_compute).
    by vm_compute.
  - rewrite (_check_create_index_query_Ok _ _ false name) by (by vm_compute).
    by vm_compute.
  - destruct self. by vm_compute.
Qed.

(** ** C6 *)

Lemma msg_index_mixed_inj n1 n2 : msg_index_mixed n1 = msg_index_mixed n2 → n1 = n2.
Proof.
  unfold msg_index_mixed. rewrite !app_assoc.
  intros H%app_inv_tail. by apply app_inv_head in H.
Qed.

Lemma msg_index_mixed_not_length n1 n2 : msg_index_mixed n1 ≠ msg_index_length n2.
Proof.
  intros H. apply (f_equal head) in H. by vm_compute in H.
Qed.

Lemma wrapped_in_quotes_quoted name :
  wrapped_in_quotes ([DQUOTE] ++ name ++ [DQUOTE]) = true.
Proof.
  unfold wrapped_in_quotes. simpl head. rewrite app_assoc, last_snoc.
  by rewrite !bool_decide_eq_true_2.
Qed.

(** C6: for a recognised CREATE INDEX or CREATE UNIQUE INDEX statement, the
    message of the mixed case is among the messages the statement appends
    exactly for its index name, and exactly when the name has a letter of
    a-z and a letter of A-Z and is not between double quotes; the name
    between double quotes has no such message. *)
Theorem index_case_mixing
    (self : DdlChecker) (query : str) (is_unique : bool) (index_name : str) :
  classify query = (if is_unique then CreateUniqueIndex else CreateIndex) →
  split query !! (if is_unique then 3%nat else 2%nat) = Some index_name →
  ∃ d,
    check_query self query = Ok (extend d self)
    ∧ (∀ n, msg_index_mixed n ∈ d ↔
            n = index_name ∧ has_lower index_name ∧ has_upper index_name
            ∧ wrapped_in_quotes index_name = false)
    ∧ (∀ name n, index_name = [DQUOTE] ++ name ++ [DQUOTE] →
                 msg_index_mixed n ∉ d).
Proof.
  intros Hk Hname. exists (index_diagnostics index_name).
  assert (∀ n, msg_index_mixed n ∈ index_diagnostics index_name ↔
               n = index_name ∧ has_lower index_name ∧ has_upper index_name
               ∧ wrapped_in_quotes index_name = false) as Hiff.
  { intros n. unfold index_diagnostics.
    pose proof (_check_mix_upper_lower_case_text_false index_name
                  (nospace_no_LF _ (split_nospace _ _ _ Hname))) as Hmix.
    rewrite elem_of_app.
    destruct (_check_mix_upper_lower_case_text index_name); simpl.
    - split.
      + intros [[]%elem_of_nil|Hin].
        destruct (63 <? len index_name)%nat; [|by apply elem_of_nil in Hin].
        apply list_elem_of_singleton in Hin.
        by apply msg_index_mixed_not_length in Hin.
      + intros (_ & H). apply Hmix in H. done.
    - split.
      + intros [Hin|Hin].
        * apply list_elem_of_singleton, msg_index_mixed_inj in Hin.
          split; [done|]. by apply Hmix.
        * destruct (63 <? len index_name)%nat; [|by apply elem_of_nil in Hin].
          apply list_elem_of_singleton in Hin.
          by apply msg_index_mixed_not_length in Hin.
      + intros (-> & _). left. by apply list_elem_of_singleton. }
  split_and!; [|done|].
  - unfold check_query. rewrite Hk.
    destruct is_unique;
      [by apply (_check_create_index_query_Ok _ _ true)
      |by apply (_check_create_index_query_Ok _ _ false)].
  - intros name n -> (_ & _ & _ & H)%Hiff.
    by rewrite wrapped_in_quotes_quoted in H.
Qed.

Lemma index_case_mixing_witness :
  ∃ d, check_query (init []) (u "CREATE UNIQUE INDEX Idx_a ON t (id)")
       = Ok (extend d (init []))
       ∧ msg_index_mixed (u "Idx_a") ∈ d.
Proof.
  destruct (index_case_mixing (init []) (u "CREATE UNIQUE INDEX Idx_a ON t (id)")
              true (u "Idx_a") ltac:(by vm_compute) ltac:(by vm_compute))
    as (d & H1 & H2 & _).
  exists d. split; [exact H1|]. apply H2. split_and!; [done| | |by vm_compute].
  - exists 100. split; [|by vm_compute]. vm_compute. by repeat constructor.
  - exists 73. split; [|by vm_compute]. vm_compute. by repeat constructor.
Defined.

(** ** C7 *)

(** C7: the text of a failure that is not the partition error is to be
    appended as it is, and the comment of the source says so; the source
    appends the text in lower case.  Here the text of the engine has a
    capital letter, it does not match the pattern, and the message appended
    is not the text. *)
Lemma execution_error_not_verbatim :
  re_search re_partition_error type_error = None
  ∧ _execute_ddl ascii_lower [RaisedError type_error] (init [])
    = Some (Ok (append (u "type money does not exist") (init [])))
  ∧ type_error ∉ [u "type money does not exist"].
Proof.
  split_and!; [by vm_compute..|].
  intros H%list_elem_of_singleton. by vm_compute in H.
Qed.

(** What the source does with such a failure: when it is not an
    OperationalError (those are retried) and its text in lower case does not
    match the pattern of the partition error, the text in lower case is the
    one message appended. *)
Theorem execution_error_fallback
    (lower : str → str) (retries : nat) (original_error : str)
    (later : list attempt) (self : DdlChecker) :
  re_search re_partition_error (lower original_error) = None →
  ∃ self',
    _execute_ddl lower
      (replicate retries RaisedOperationalError
         ++ RaisedError original_error :: later) self = Some (Ok self')
    ∧ messages self' = messages self ++ [lower original_error]
    ∧ _no_primary_key_table_names self' = _no_primary_key_table_names self.
Proof.
  intros Hno. exists (append (lower original_error) self).
  split; [|done]. induction retries as [|n IH]; simpl; [|done].
  by rewrite Hno.
Qed.

Lemma execution_error_fallback_witness :
  ∃ self',
    _execute_ddl ascii_lower
      [RaisedOperationalError; RaisedOperationalError; RaisedError type_error]
      (init []) = Some (Ok self')
    ∧ messages self' = [] ++ [ascii_lower type_error]
    ∧ _no_primary_key_table_names self' = ∅.
Proof.
  apply (execution_error_fallback ascii_lower 2 type_error [] (init [])).
  by vm_compute.
Defined.

(** ** C8 *)

(** C8: when the loop over the statements ends and some turn of the
    execution is not retried, [check_ddl] on a new checker returns the
    messages of the statements in the order of the document, then the
    messages of the missing primary keys in the order the set is iterated,
    then the messages of the execution, one at most; the list is empty when
    the three parts are. *)
Theorem check_ddl_order
    (set_iter : gset str → list str) (lower : str → str) (ddl : str)
    (attempts : list attempt) (self1 : DdlChecker) :
  check_queries (init ddl) (statements ddl) = Ok self1 →
  (∃ a, a ∈ attempts ∧ a ≠ RaisedOperationalError) →
  ∃ ds execution,
    run (init ddl) (statements ddl) ds self1
    ∧ (length execution ≤ 1)%nat
    ∧ (∀ self, _execute_ddl lower attempts self
               = Some (Ok (extend execution self)))
    ∧ check_ddl set_iter lower attempts (init ddl)
      = Some (Ok (concat ds
                    ++ (msg_missing_primary_key
                          <$> set_iter (_no_primary_key_table_names self1))
                    ++ execution))
    ∧ (concat ds
         ++ (msg_missing_primary_key
               <$> set_iter (_no_primary_key_table_names self1))
         ++ execution = [] ↔
       concat ds = [] ∧ set_iter (_no_primary_key_table_names self1) = []
       ∧ execution = []).
Proof.
  intros Hloop Hattempts.
  destruct (check_queries_run _ _ _ Hloop) as (ds & Hrun).
  destruct (_execute_ddl_total lower attempts Hattempts)
    as (execution & Hlen & Hexec).
  exists ds, execution. split_and!; [done..| |].
  - unfold check_ddl.
    rewrite (_check_ddl_syntax_Ok set_iter (init ddl) self1) by done.
    rewrite Hexec. simpl. do 2 f_equal.
    destruct (run_messages _ _ _ _ Hrun) as [-> _]. simpl.
    by rewrite <- app_assoc.
  - split.
    + intros [? [?%fmap_nil_inv ?]%app_eq_nil]%app_eq_nil. done.
    + by intros (-> & -> & ->).
Qed.

Lemma check_ddl_order_witness :
  ∃ execution,
    check_ddl elements ascii_lower
      [RaisedOperationalError; RaisedError type_error]
      (init create_alter_with_space)
    = Some (Ok ([] ++ [msg_missing_primary_key (u "t")] ++ execution)).
Proof.
  destruct (check_ddl_order elements ascii_lower create_alter_with_space
              [RaisedOperationalError; RaisedError type_error]
              (set_pending {[u "t"]} (init create_alter_with_space))
              ltac:(by vm_compute)
              ltac:(exists (RaisedError type_error);
                    split; [by repeat constructor|done]))
    as (ds & execution & Hrun & _ & _ & H & _).
  exists execution. rewrite H. do 2 f_equal.
  destruct (run_messages _ _ _ _ Hrun) as [Hm _].
  simpl in Hm. rewrite <- Hm.
  change (_no_primary_key_table_names
            (set_pending {[u "t"]} (init create_alter_with_space)))
    with ({[u "t"]} : gset str).
  by rewrite elements_singleton.
Defined.

(** ** C9 *)

(** C9: a statement ALTER TABLE name ADD CONSTRAINT ... whose name is one
    word with a character outside a-z, 0-9 and the underscore is not
    recognised and leaves the checker as it is; no statement takes such a
    name out of the set, so a table of that name created without PRIMARY KEY
    has its message of a missing primary key in the final list. *)
Theorem alter_name_not_recognised
    (set_iter : gset str → list str) (name rest : str) :
  (∀ s, set_iter s ≡ₚ elements s) →
  (∃ c, c ∈ name ∧ is_name_char c = false) →
  SPACE ∉ name →
  let query := ALTER_TABLE_ ++ name ++ _ADD_CONSTRAINT ++ rest in
  classify query = Unrecognized
  ∧ (∀ self, check_query self query = Ok self)
  ∧ (∀ self queries self',
       name ∈ _no_primary_key_table_names self →
       check_queries self queries = Ok self' →
       name ∈ _no_primary_key_table_names self')
  ∧ (∀ ddl self' i create,
       _check_ddl_syntax set_iter (init ddl) = Ok self' →
       statements ddl !! i = Some create →
       creates_without_primary_key name create →
       msg_missing_primary_key name ∈ messages self').
Proof.
  intros Hperm Hbad Hspace query.
  assert (classify query = Unrecognized) as Hk.
  { unfold classify, query, re_match, re_alter_table_add_constraint.
    change (startswith CREATE_TABLE _) with false.
    change (startswith CREATE_INDEX _) with false.
    change (startswith CREATE_UNIQUE_INDEX _) with false.
    cbn match. unfold re_lit at 1. rewrite strip_prefix_app.
    unfold _ADD_CONSTRAINT. rewrite <- app_comm_cons.
    change (name ++ 32 :: ?l) with (name ++ SPACE :: l).
    by rewrite (re_plus_lit_None is_name_char SPACE). }
  assert (∀ query', ¬ adds_primary_key name query') as Hnever.
  { intros query' (Hk' & H2 & _).
    pose proof (classify_alter_table_name _ _ Hk' H2) as Hall.
    destruct Hbad as (c & Hc & Hcbad).
    eapply Forall_forall in Hall; [|exact Hc]. congruence. }
  assert (∀ self queries self',
            name ∈ _no_primary_key_table_names self →
            check_queries self queries = Ok self' →
            name ∈ _no_primary_key_table_names self') as Hkeep.
  { intros self queries self' Hin Hloop.
    eapply check_queries_keep; [exact Hloop|done|].
    apply Forall_forall. intros; apply Hnever. }
  split_and!; [done| |done|].
  - intros self. unfold check_query. by rewrite Hk.
  - intros ddl self' i create H Hi Hcreate.
    destruct (_check_ddl_syntax_inv _ _ _ H) as (self1 & Hloop & ->).
    simpl. apply elem_of_app. right. apply list_elem_of_fmap.
    exists name. split; [done|]. apply (elem_of_set_iter _ Hperm).
    simpl in Hloop.
    rewrite <- (take_drop_middle _ _ _ Hi), check_queries_app in Hloop.
    destruct (check_queries (init ddl) (take i (statements ddl)))
      as [self0|]; [|done].
    simpl in Hloop.
    destruct (check_query self0 create) as [self0'|] eqn:E; [|done].
    simpl in Hloop. eapply Hkeep; [|exact Hloop].
    destruct (check_query_inv _ _ _ E) as (d & names & -> & _ & _ & Hnew & _).
    simpl. by apply Hnew.
Qed.

Lemma alter_name_not_recognised_witness :
  classify (u "ALTER TABLE T ADD CONSTRAINT t_pk PRIMARY KEY (id)") = Unrecognized
  ∧ ∃ self',
      _check_ddl_syntax elements (init create_T_alter_T) = Ok self'
      ∧ msg_missing_primary_key (u "T") ∈ messages self'.
Proof.
  destruct (alter_name_not_recognised elements (u "T")
              (u " t_pk PRIMARY KEY (id)") ltac:(done)
              ltac:(exists 84; split; [by repeat constructor|by vm_compute])
              ltac:(by intros [=]%list_elem_of_singleton))
    as (H1 & _ & _ & H2).
  split; [exact H1|].
  exists (extend [msg_missing_primary_key (u "T")]
            (set_pending {[u "T"]} (init create_T_alter_T))).
  assert (_check_ddl_syntax elements (init create_T_alter_T)
          = Ok (extend [msg_missing_primary_key (u "T")]
                  (set_pending {[u "T"]} (init create_T_alter_T))))
    as Hrun by (by vm_compute).
  split; [exact Hrun|].
  apply (H2 create_T_alter_T _ 0%nat (u "CREATE TABLE T (id int)") Hrun);
    [by vm_compute|].
  split_and!; by vm_compute.
Defined.

(** ** C10 *)

(** C10: the checkers take words at fixed places without a test of the
    number of words.  Each of the three statements is recognised, the word
    read is not there, and the static check, and with it [check_ddl], ends
    with IndexError and no list of messages. *)
Theorem token_index_out_of_range
    (set_iter : gset str → list str) (lower : str → str)
    (attempts : list attempt) :
  Forall (fun '(ddl, i) =>
      classify ddl ≠ Unrecognized
      ∧ split ddl !! i = None
      ∧ statements ddl = [ddl]
      ∧ check_query (init ddl) ddl = Raise IndexError
      ∧ _check_ddl_syntax set_iter (init ddl) = Raise IndexError
      ∧ check_ddl set_iter lower attempts (init ddl) = Some (Raise IndexError))
    [(u "CREATE TABLE", 2%nat);
     (u "ALTER TABLE t ADD CONSTRAINT", 5%nat);
     (u "ALTER TABLE t ADD CONSTRAINT c PRIMARY", 7%nat)].
Proof.
  repeat apply Forall_cons_2; [..|constructor].
  all: split_and!; [by vm_compute..| |].
  all: unfold check_ddl, _check_ddl_syntax.
  all: match goal with
       | |- context [check_queries ?a ?b] =>
         replace (check_queries a b) with (@Raise DdlChecker IndexError)
           by (by vm_compute)
       end; reflexivity.
Qed.

(** * Further properties of the source *)

(** ** The splitter *)

Lemma str_ind2 (P : str → Prop) :
  P [] → (∀ c, P [c]) → (∀ c c' r, P r → P (c' :: r) → P (c :: c' :: r)) →
  ∀ s, P s.
Proof.
  intros H0 H1 H2 s.
  assert (P s ∧ ∀ c, P (c :: s)) as [? _]; [|done].
  induction s as [|c' r [IH1 IH2]]; [by split|].
  split; [apply IH2|]. intros c. by apply H2.
Qed.

Lemma sub_double_newline_step c c' r :
  sub_double_newline (c :: c' :: r)
  = if (c =? LF) && (c' =? LF) then sub_double_newline r
    else c :: sub_double_newline (c' :: r).
Proof. reflexivity. Qed.

Lemma sub_double_newline_filter c s :
  c ≠ LF →
  filter (fun x => x = c) (sub_double_newline s) = filter (fun x => x = c) s.
Proof.
  intros Hc. induction s as [| |c1 c2 r IH1 IH2] using str_ind2; [done..|].
  rewrite sub_double_newline_step.
  destruct (N.eqb_spec c1 LF) as [->|H1]; cbn [andb]; cbv iota.
  - destruct (N.eqb_spec c2 LF) as [->|H2].
    + rewrite IH1. by rewrite !filter_cons_False by done.
    + rewrite (filter_cons _ LF), (filter_cons _ LF (c2 :: r)). by rewrite IH2.
  - rewrite (filter_cons _ c1), (filter_cons _ c1 (c2 :: r)). by rewrite IH2.
Qed.

Lemma sub_double_newline_id s :
  contains [LF; LF] s = false → sub_double_newline s = s.
Proof.
  induction s as [| |c1 c2 r IH1 IH2] using str_ind2; [done..|].
  rewrite contains_cons. intros [Hs Hc]%orb_false_elim.
  rewrite sub_double_newline_step, (IH2 Hc).
  cbn [startswith] in Hs. rewrite andb_true_r in Hs.
  rewrite (N.eqb_sym c1), (N.eqb_sym c2). by rewrite Hs.
Qed.

(** X1: the deletion of the pairs of line feeds touches line feeds only: the
    other characters stay, in their order; it deletes nothing in a text
    without a pair, and a second pass changes nothing. *)
Theorem sub_double_newline_only_line_feeds (s : str) :
  filter (fun c => c ≠ LF) (sub_double_newline s) = filter (fun c => c ≠ LF) s
  ∧ (contains [LF; LF] s = false → sub_double_newline s = s)
  ∧ sub_double_newline (sub_double_newline s) = sub_double_newline s.
Proof.
  split_and!.
  - induction s as [| |c1 c2 r IH1 IH2] using str_ind2; [done..|].
    rewrite sub_double_newline_step.
    destruct (N.eqb_spec c1 LF) as [->|H1]; cbn [andb]; cbv iota.
    + destruct (N.eqb_spec c2 LF) as [->|H2].
      * rewrite IH1. by rewrite !filter_cons_False by (by intros ?).
      * rewrite (filter_cons _ LF), (filter_cons _ LF (c2 :: r)). by rewrite IH2.
    + rewrite (filter_cons _ c1), (filter_cons _ c1 (c2 :: r)). by rewrite IH2.
  - apply sub_double_newline_id.
  - apply sub_double_newline_id.
    by apply (sub_double_newline_no_pair (length s)).
Qed.

Lemma sub_double_newline_only_line_feeds_witness :
  sub_double_newline create_alter_with_space = create_alter_with_space.
Proof.
  destruct (sub_double_newline_only_line_feeds create_alter_with_space)
    as (_ & H & _).
  apply H. by vm_compute.
Defined.

Lemma split_on_length sep s :
  length (split_on sep s) = S (count_char sep s).
Proof.
  unfold count_char. induction s as [|c r IH]; simpl; [done|].
  destruct (N.eqb_spec c sep) as [->|Hne].
  - rewrite filter_cons_True by done. simpl. by rewrite IH.
  - rewrite filter_cons_False by done.
    destruct (split_on sep r); simpl in *; [done|]. done.
Qed.

(** X2: the loop runs over one statement more than the document has semicolons,
    whatever the line feeds are: the document without semicolon is one
    statement, and the text after the last semicolon is a statement too. *)
Theorem statements_length (ddl : str) :
  length (statements ddl) = S (count_char SEMICOLON ddl).
Proof.
  unfold statements. rewrite split_on_length. unfold count_char.
  by rewrite sub_double_newline_filter.
Qed.

Lemma sub_double_newline_app q c s :
  contains [LF; LF] q = false → c ≠ LF →
  sub_double_newline (q ++ c :: s) = q ++ c :: sub_double_newline s.
Proof.
  intros Hq Hc. induction q as [|c1|c1 c2 r IH1 IH2] using str_ind2.
  - by apply sub_double_newline_cons.
  - change ([c1] ++ c :: s) with (c1 :: c :: s).
    rewrite sub_double_newline_step.
    rewrite (proj2 (N.eqb_neq c LF)) by done. rewrite andb_false_r.
    by rewrite sub_double_newline_cons.
  - rewrite contains_cons in Hq. apply orb_false_elim in Hq as [Hs Hq].
    cbn [startswith] in Hs. rewrite andb_true_r in Hs.
    rewrite <- !app_comm_cons. rewrite sub_double_newline_step.
    rewrite (N.eqb_sym c1), (N.eqb_sym c2), Hs.
    rewrite app_comm_cons. by rewrite IH2.
Qed.

Lemma split_on_app sep q s :
  sep ∉ q → split_on sep (q ++ sep :: s) = q :: split_on sep s.
Proof.
  induction q as [|c q IH]; intros Hq; simpl.
  - by rewrite N.eqb_refl.
  - apply not_elem_of_cons in Hq as [Hc Hq].
    rewrite (proj2 (N.eqb_neq c sep)) by done. by rewrite IH.
Qed.

(** X3: the layout the checker reads: when every statement is followed by a
    semicolon and an empty line, and no statement has a semicolon or a pair
    of line feeds, the loop runs over these very statements, and over the
    empty text after the last semicolon. *)
Theorem statements_layout (queries : list str) :
  Forall (fun query => (SEMICOLON ∉ query)
                       ∧ contains [LF; LF] query = false) queries →
  statements (layout queries) = queries ++ [[]].
Proof.
  unfold statements, layout. induction 1 as [|query queries [Hs Hl] _ IH].
  - reflexivity.
  - rewrite fmap_cons. cbn [concat]. rewrite <- app_assoc. cbn [app].
    rewrite sub_double_newline_app by done.
    rewrite sub_double_newline_LF_LF.
    rewrite split_on_app by done. by rewrite IH.
Qed.

Lemma statements_layout_witness :
  statements (layout [create_t; alter_t]) = [create_t; alter_t] ++ [[]].
Proof.
  apply (statements_layout [create_t; alter_t]).
  repeat apply Forall_cons_2; [| |constructor].
  all: split; [|by vm_compute].
  all: match goal with
       | |- ?P => apply (bool_decide_unpack P); by vm_compute
       end.
Defined.

(** ** The kinds of statements *)

Lemma startswith_true p : ∀ s, startswith p s = true → ∃ r, s = p ++ r.
Proof.
  induction p as [|a p IH]; intros s; simpl; [eauto|].
  destruct s as [|b s]; [done|].
  intros [->%N.eqb_eq [r ->]%IH]%andb_true_iff. eauto.
Qed.

(** X4: the four tests of the loop exclude each other, so the kind of a statement
    does not depend on the order of the tests: a statement has a kind when,
    and only when, the test of that kind holds. *)
Theorem classify_by_own_test (query : str) :
  (classify query = CreateTable ↔ startswith CREATE_TABLE query = true)
  ∧ (classify query = CreateIndex ↔ startswith CREATE_INDEX query = true)
  ∧ (classify query = CreateUniqueIndex
     ↔ startswith CREATE_UNIQUE_INDEX query = true)
  ∧ (classify query = AlterTableAddConstraint
     ↔ is_Some (re_match re_alter_table_add_constraint query)).
Proof.
  assert (∀ r, re_match re_alter_table_add_constraint (CREATE_TABLE ++ r) = None)
    as HT by done.
  assert (∀ r, re_match re_alter_table_add_constraint (CREATE_INDEX ++ r) = None)
    as HI by done.
  assert (∀ r, re_match re_alter_table_add_constraint
                 (CREATE_UNIQUE_INDEX ++ r) = None) as HU by done.
  unfold classify.
  destruct (startswith CREATE_TABLE query) eqn:E1.
  { apply startswith_true in E1 as [r ->]. rewrite HT.
    split_and!; split; intros H; try done; try (by vm_compute in H);
      by destruct H. }
  destruct (startswith CREATE_INDEX query) eqn:E2.
  { apply startswith_true in E2 as [r ->]. rewrite HI.
    split_and!; split; intros H; try done; try (by vm_compute in H);
      by destruct H. }
  destruct (startswith CREATE_UNIQUE_INDEX query) eqn:E3.
  { apply startswith_true in E3 as [r ->]. rewrite HU.
    split_and!; split; intros H; try done; try (by vm_compute in H);
      by destruct H. }
  destruct (re_match re_alter_table_add_constraint query) as [x|] eqn:E4.
  - split_and!; split; intros H; try done; eauto.
  - split_and!; split; intros H; try done; by destruct H.
Qed.

(** X5: a statement that does not start with the letter C or the letter A, so
    the empty statement, a statement after a space or a line feed, or a
    statement in lower case, is not recognised: the loop goes over it with no
    message and no change. *)
Theorem check_query_first_letter (self : DdlChecker) (query : str) :
  head query ≠ Some 67 → head query ≠ Some 65 →
  classify query = Unrecognized ∧ check_query self query = Ok self.
Proof.
  intros HC HA.
  assert (classify query = Unrecognized) as Hk.
  { destruct (classify query) eqn:Hk; [exfalso..|done].
    4: { apply classify_alter_inv in Hk as (run & rest & -> & _). by apply HA. }
    all: unfold classify in Hk.
    all: destruct (startswith CREATE_TABLE query) eqn:E1;
      [apply startswith_true in E1 as [r ->]; by apply HC|].
    all: destruct (startswith CREATE_INDEX query) eqn:E2;
      [apply startswith_true in E2 as [r ->]; by apply HC|].
    all: destruct (startswith CREATE_UNIQUE_INDEX query) eqn:E3;
      [apply startswith_true in E3 as [r ->]; by apply HC|].
    all: by destruct (re_match re_alter_table_add_constraint query). }
  split; [done|]. unfold check_query. by rewrite Hk.
Qed.

Lemma check_query_first_letter_witness :
  classify ([LF] ++ create_t) = Unrecognized
  ∧ check_query (init []) ([LF] ++ create_t) = Ok (init []).
Proof.
  apply (check_query_first_letter (init []) ([LF] ++ create_t)); by vm_compute.
Defined.

(** ** Words that are not there *)

Lemma check_query_Ok_iff self query :
  (∃ self', check_query self query = Ok self') ↔ enough_words query = true.
Proof.
  unfold check_query, enough_words. destruct (classify query).
  - unfold _check_create_table_query, getitem.
    destruct (split query !! 2%nat) eqn:E; simpl.
    + apply lookup_lt_Some in E. decide_words.
      split; [done|eauto].
    + apply lookup_ge_None in E. decide_words.
      split; [by intros [? ?]|done].
  - unfold _check_create_index_query, getitem.
    destruct (split query !! 2%nat) eqn:E; simpl.
    + apply lookup_lt_Some in E. decide_words.
      split; [done|eauto].
    + apply lookup_ge_None in E. decide_words.
      split; [by intros [? ?]|done].
  - unfold _check_create_index_query, getitem.
    destruct (split query !! 3%nat) eqn:E.
    + pose proof (lookup_lt_Some _ _ _ E) as Hlt.
      destruct (lookup_lt_is_Some_2 (split query) 2) as [t2 ->]; [lia|].
      simpl. decide_words. split; [done|eauto].
    + apply lookup_ge_None in E. decide_words.
      destruct (split query !! 2%nat); simpl; split; (done || by intros [? ?]).
  - unfold _check_alter_table_add_constraint_query, getitem.
    destruct (split query !! 6%nat) as [t6|] eqn:E6.
    + pose proof (lookup_lt_Some _ _ _ E6) as Hlt.
      destruct (lookup_lt_is_Some_2 (split query) 2) as [t2 ->]; [lia|].
      destruct (lookup_lt_is_Some_2 (split query) 5) as [t5 ->]; [lia|].
      simpl. destruct (bool_decide (t6 = PRIMARY)); simpl.
      * destruct (split query !! 7%nat) eqn:E7; simpl.
        -- apply lookup_lt_Some in E7. decide_words.
           split; [done|]. intros _. repeat case_bool_decide; eauto.
        -- apply lookup_ge_None in E7. decide_words.
           split; [by intros [? ?]|done].
      * destruct (bool_decide (t6 = FOREIGN)); simpl; [|split; [done|eauto]].
        destruct (split query !! 7%nat) eqn:E7; simpl.
        -- apply lookup_lt_Some in E7. decide_words.
           split; [done|eauto].
        -- apply lookup_ge_None in E7. decide_words.
           split; [by intros [? ?]|done].
    + split; [|done]. intros [self' H]. exfalso.
      destruct (split query !! 2%nat); [|done]. simpl in H.
      destruct (split query !! 5%nat); [|done]. done.
  - split; [done|eauto].
Qed.

Lemma check_queries_Ok_iff queries : ∀ self,
  (∃ self', check_queries self queries = Ok self')
  ↔ Forall (fun query => enough_words query = true) queries.
Proof.
  induction queries as [|query queries IH]; intros self; simpl.
  - split; [constructor|eauto].
  - rewrite Forall_cons.
    destruct (check_query self query) as [self1|e] eqn:E; simpl.
    + rewrite (IH self1). split; [|by intros [_ ?]].
      intros HF. split; [|done]. apply (check_query_Ok_iff self). eauto.
    + split; [by intros [? ?]|]. intros [Hq _].
      apply (check_query_Ok_iff self) in Hq as [? Hq]. congruence.
Qed.

Lemma not_Forall_true_Exists_false {A} (f : A → bool) l :
  ¬ Forall (fun x => f x = true) l ↔ Exists (fun x => f x = false) l.
Proof.
  induction l as [|a l IH].
  - split; [intros H; destruct H; constructor|inversion 1].
  - rewrite Forall_cons, Exists_cons, <- IH. destruct (f a).
    + split; [intros H; right; intros HF; by apply H|].
      intros [?|H] [_ ?]; [done|by apply H].
    + split; [by left|]. by intros _ [? _].
Qed.

(** X6: the static check ends with its messages exactly when every statement has
    the words its checker reads: three for CREATE TABLE and CREATE INDEX,
    four for CREATE UNIQUE INDEX, seven for ALTER TABLE ... ADD CONSTRAINT,
    and eight when the seventh is PRIMARY or FOREIGN; otherwise it raises
    IndexError.  Whether it ends does not depend on the checker it starts
    with. *)
Theorem _check_ddl_syntax_completes
    (set_iter : gset str → list str) (self : DdlChecker) :
  ((∃ self', _check_ddl_syntax set_iter self = Ok self')
   ↔ Forall (fun query => enough_words query = true) (statements (_ddl self)))
  ∧ (_check_ddl_syntax set_iter self = Raise IndexError
     ↔ Exists (fun query => enough_words query = false)
         (statements (_ddl self))).
Proof.
  assert ((∃ self', _check_ddl_syntax set_iter self = Ok self')
          ↔ Forall (fun query => enough_words query = true)
              (statements (_ddl self))) as Hiff.
  { rewrite <- (check_queries_Ok_iff _ self). unfold _check_ddl_syntax.
    destruct (check_queries self (statements (_ddl self))); simpl.
    - split; eauto.
    - split; by intros [? ?]. }
  split; [done|].
  rewrite <- not_Forall_true_Exists_false, <- Hiff.
  destruct (_check_ddl_syntax set_iter self) as [self'|[]].
  - split; [done|]. intros H. exfalso. apply H. eauto.
  - split; [|done]. intros _ [? ?]. done.
Qed.

(** ** The rules of the names *)

Lemma msg_table_length_inj n1 n2 :
  msg_table_length n1 = msg_table_length n2 → n1 = n2.
Proof.
  unfold msg_table_length. rewrite !app_assoc.
  intros H%app_inv_tail. by apply app_inv_head in H.
Qed.

Lemma msg_index_length_inj n1 n2 :
  msg_index_length n1 = msg_index_length n2 → n1 = n2.
Proof.
  unfold msg_index_length. rewrite !app_assoc.
  intros H%app_inv_tail. by apply app_inv_head in H.
Qed.

Lemma table_diagnostics_length_message name :
  msg_table_length name ∈ table_diagnostics name ↔ (63 < len name)%nat.
Proof.
  unfold table_diagnostics. destruct (63 <? len name)%nat eqn:E.
  - apply Nat.ltb_lt in E. split; [done|]. intros _.
    by apply list_elem_of_singleton.
  - apply Nat.ltb_ge in E. split; [by intros ?%elem_of_nil|lia].
Qed.

Lemma index_diagnostics_length_message name :
  msg_index_length name ∈ index_diagnostics name ↔ (63 < len name)%nat.
Proof.
  unfold index_diagnostics. rewrite elem_of_app.
  assert (msg_index_length name
            ∈ (if negb (_check_mix_upper_lower_case_text name)
               then [msg_index_mixed name] else []) ↔ False) as ->.
  { split; [|done]. case_match; [|by intros ?%elem_of_nil].
    intros Hm%list_elem_of_singleton. symmetry in Hm.
    by apply msg_index_mixed_not_length in Hm. }
  destruct (63 <? len name)%nat eqn:E.
  - apply Nat.ltb_lt in E. split; [done|]. intros _. right.
    by apply list_elem_of_singleton.
  - apply Nat.ltb_ge in E. split; [|lia]. by intros [[]|?%elem_of_nil].
Qed.

(** X7: the rule of the length as the source has it: a recognised CREATE TABLE,
    CREATE INDEX or CREATE UNIQUE INDEX statement that has its name appends
    the message of the length for that name when, and only when, the word of
    the name, with the double quotes it may have, is longer than 63
    characters: a word of 64 characters has the message and one of 63 has
    not. *)
Theorem name_length_rule (self : DdlChecker) (query name : str) :
  (classify query = CreateTable ∧ split query !! 2%nat = Some name)
  ∨ (classify query = CreateIndex ∧ split query !! 2%nat = Some name)
  ∨ (classify query = CreateUniqueIndex ∧ split query !! 3%nat = Some name) →
  ∃ self' d,
    check_query self query = Ok self'
    ∧ messages self' = messages self ++ d
    ∧ (match classify query with
       | CreateTable => msg_table_length name
       | _ => msg_index_length name
       end ∈ d
       ↔ (63 < len name)%nat).
Proof.
  unfold check_query. intros [[Hk H]|[[Hk H]|[Hk H]]]; rewrite Hk; simpl.
  - rewrite (_check_create_table_query_Ok _ _ name) by done.
    eexists _, (table_diagnostics name). split; [done|].
    split; [by destruct (contains PRIMARY_KEY query)|].
    apply table_diagnostics_length_message.
  - rewrite (_check_create_index_query_Ok _ _ false name) by done.
    eexists _, (index_diagnostics name). split; [done|]. split; [done|].
    apply index_diagnostics_length_message.
  - rewrite (_check_create_index_query_Ok _ _ true name) by done.
    eexists _, (index_diagnostics name). split; [done|]. split; [done|].
    apply index_diagnostics_length_message.
Qed.

Lemma name_length_rule_witness :
  ∃ self' d,
    check_query (init [])
      (u "CREATE INDEX " ++ replicate 64 97 ++ u " ON t (id)") = Ok self'
    ∧ messages self' = [] ++ d
    ∧ msg_index_length (replicate 64 97) ∈ d.
Proof.
  assert (classify (u "CREATE INDEX " ++ replicate 64 97 ++ u " ON t (id)")
          = CreateIndex) as Hk by (by vm_compute).
  destruct (name_length_rule (init [])
              (u "CREATE INDEX " ++ replicate 64 97 ++ u " ON t (id)")
              (replicate 64 97)
              ltac:(right; left; split; by vm_compute))
    as (self' & d & H1 & H2 & H3).
  exists self', d. split_and!; [done..|].
  rewrite Hk in H3. apply H3. by vm_compute.
Defined.

Lemma identifier_diagnostics_mixed identifier :
  LF ∉ identifier →
  msg_identifier_mixed identifier ∈ identifier_diagnostics identifier
  ↔ has_lower identifier ∧ has_upper identifier
    ∧ wrapped_in_quotes identifier = false.
Proof.
  intros HLF. rewrite <- (_check_mix_upper_lower_case_text_false _ HLF).
  unfold identifier_diagnostics. rewrite elem_of_app.
  assert (msg_identifier_mixed identifier
            ∈ (if (63 <? len (sub_quote identifier))%nat
               then [msg_identifier_length identifier] else []) ↔ False) as ->.
  { split; [|done]. case_match; [|by intros ?%elem_of_nil].
    intros Hm%list_elem_of_singleton. apply (f_equal head) in Hm.
    by vm_compute in Hm. }
  destruct (_check_mix_upper_lower_case_text identifier); simpl.
  - split; [|done]. by intros [?%elem_of_nil|[]].
  - split; [done|]. intros _. left. by apply list_elem_of_singleton.
Qed.

Lemma identifier_diagnostics_length identifier :
  msg_identifier_length identifier ∈ identifier_diagnostics identifier
  ↔ (63 < len (sub_quote identifier))%nat.
Proof.
  unfold identifier_diagnostics. rewrite elem_of_app.
  assert (msg_identifier_length identifier
            ∈ (if negb (_check_mix_upper_lower_case_text identifier)
               then [msg_identifier_mixed identifier] else []) ↔ False) as ->.
  { split; [|done]. case_match; [|by intros ?%elem_of_nil].
    intros Hm%list_elem_of_singleton. apply (f_equal head) in Hm.
    by vm_compute in Hm. }
  destruct (63 <? len (sub_quote identifier))%nat eqn:E.
  - apply Nat.ltb_lt in E. split; [done|]. intros _. right.
    by apply list_elem_of_singleton.
  - apply Nat.ltb_ge in E. split; [|lia]. by intros [[]|?%elem_of_nil].
Qed.

(** X8: the rules of the identifier of a constraint: a recognised ALTER TABLE
    ... ADD CONSTRAINT statement with the words its checker reads appends
    the message of the mixed case for its sixth word exactly when the word
    has a letter of a-z and a letter of A-Z and is not between double quotes,
    and the message of the length exactly when the word without its double
    quotes is longer than 63 characters; the messages of the identifier come
    first, and the only other message is the one of the ordering. *)
Theorem identifier_rules (self : DdlChecker) (query identifier : str) :
  classify query = AlterTableAddConstraint →
  split query !! 5%nat = Some identifier →
  enough_words query = true →
  ∃ self' table_name rest,
    check_query self query = Ok self'
    ∧ split query !! 2%nat = Some table_name
    ∧ messages self'
      = messages self ++ identifier_diagnostics identifier ++ rest
    ∧ (rest = [] ∨ rest = [msg_alter_order table_name])
    ∧ (msg_identifier_mixed identifier ∈ identifier_diagnostics identifier
       ↔ has_lower identifier ∧ has_upper identifier
         ∧ wrapped_in_quotes identifier = false)
    ∧ (msg_identifier_length identifier ∈ identifier_diagnostics identifier
       ↔ (63 < len (sub_quote identifier))%nat).
Proof.
  intros Hk H5 Hwords.
  destruct (proj2 (check_query_Ok_iff self query) Hwords) as [self' Hrun].
  pose proof Hrun as Hrun'. unfold check_query in Hrun'. rewrite Hk in Hrun'.
  destruct (_check_alter_table_add_constraint_query_inv _ _ _ Hrun')
    as (t & ident & H2 & H5' & Hcases).
  rewrite H5 in H5'. injection H5' as <-.
  assert (∃ rest, messages self'
                  = messages self ++ identifier_diagnostics identifier ++ rest
                  ∧ (rest = [] ∨ rest = [msg_alter_order t])) as (rest & ? & ?).
  { destruct Hcases as [[H6 H7]|[_ ->]].
    - rewrite (_check_alter_table_add_constraint_query_primary_key _ _ t
                 identifier) in Hrun' by done.
      injection Hrun' as <-. case_bool_decide.
      + exists []. rewrite app_nil_r. by split; [|left].
      + exists [msg_alter_order t]. by split; [|right].
    - exists []. rewrite app_nil_r. by split; [|left]. }
  exists self', t, rest. split_and!; [done..| |].
  - apply identifier_diagnostics_mixed.
    apply nospace_no_LF. by eapply split_nospace.
  - apply identifier_diagnostics_length.
Qed.

Lemma identifier_rules_witness :
  ∃ self' table_name rest,
    check_query (init []) (u "ALTER TABLE t ADD CONSTRAINT Fk_a UNIQUE (id)")
    = Ok self'
    ∧ split (u "ALTER TABLE t ADD CONSTRAINT Fk_a UNIQUE (id)") !! 2%nat
      = Some table_name
    ∧ messages self' = [] ++ identifier_diagnostics (u "Fk_a") ++ rest.
Proof.
  destruct (identifier_rules (init [])
              (u "ALTER TABLE t ADD CONSTRAINT Fk_a UNIQUE (id)") (u "Fk_a")
              ltac:(by vm_compute) ltac:(by vm_compute) ltac:(by vm_compute))
    as (self' & t & rest & H1 & H2 & H3 & _).
  by exists self', t, rest.
Defined.

(** ** The set of the tables without primary key *)

Lemma adds_primary_key_removes self query self' t :
  check_query self query = Ok self' →
  adds_primary_key t query →
  t ∉ _no_primary_key_table_names self'.
Proof.
  intros Hrun (Hk & H2 & H6 & H7).
  unfold check_query in Hrun. rewrite Hk in Hrun.
  destruct (lookup_lt_is_Some_2 (split query) 5) as [ident H5].
  { apply lookup_lt_Some in H6. lia. }
  rewrite (_check_alter_table_add_constraint_query_primary_key _ _ t ident)
    in Hrun by done.
  injection Hrun as <-. case_bool_decide; simpl; [|done].
  intros [_ Hin]%elem_of_difference. apply Hin. by apply elem_of_singleton.
Qed.

Lemma check_query_pending self query self' t :
  check_query self query = Ok self' →
  t ∈ _no_primary_key_table_names self'
  ↔ (t ∈ _no_primary_key_table_names self ∧ ¬ adds_primary_key t query)
    ∨ creates_without_primary_key t query.
Proof.
  intros Hrun.
  destruct (check_query_inv _ _ _ Hrun)
    as (d & names & Hself' & _ & Hkeep & Hnew & Hfrom).
  assert (_no_primary_key_table_names self' = names) as Hn by (by subst).
  split.
  - intros Hin. rewrite Hn in Hin. destruct (Hfrom t Hin) as [Hold|Hc]; [|by right].
    left. split; [done|]. intros Hadd.
    apply (adds_primary_key_removes _ _ _ _ Hrun Hadd). by rewrite Hn.
  - rewrite Hn. intros [[Hold Hno]|Hc]; [by apply Hkeep|by apply Hnew].
Qed.

Lemma check_queries_pending t queries : ∀ self self',
  check_queries self queries = Ok self' →
  t ∈ _no_primary_key_table_names self'
  ↔ (t ∈ _no_primary_key_table_names self
     ∧ Forall (fun query => ¬ adds_primary_key t query) queries)
    ∨ (∃ i query,
         queries !! i = Some query
         ∧ creates_without_primary_key t query
         ∧ Forall (fun query => ¬ adds_primary_key t query)
             (drop (S i) queries)).
Proof.
  induction queries as [|query queries IH]; intros self self'; simpl.
  - intros [= <-]. split; [by left|]. intros [[? _]|(i & q & Hi & _)]; [done|].
    by rewrite lookup_nil in Hi.
  - destruct (check_query self query) as [self1|] eqn:E; [|done]. simpl.
    intros Hrest. rewrite (IH _ _ Hrest), (check_query_pending _ _ _ t E).
    split.
    + intros [[[[Hold Hno]|Hc] HF]|(i & q & Hi & Hc & HF)].
      * left. split; [done|]. by constructor.
      * right. exists 0%nat, query. by rewrite drop_0.
      * right. by exists (S i), q.
    + intros [[Hold [Hno HF]%Forall_cons]|(i & q & Hi & Hc & HF)].
      * left. split; [by left|done].
      * destruct i as [|i]; simpl in Hi.
        -- injection Hi as <-. rewrite drop_0 in HF. left. split; [by right|done].
        -- right. by exists i, q.
Qed.

(** X9: what a statement does to the set: a statement the loop goes through
    leaves the set as it is, or it is a CREATE TABLE without PRIMARY KEY and
    adds its table, or it is an ALTER TABLE ... ADD CONSTRAINT ... PRIMARY
    KEY of a table of the set and takes that table out.  An index, a FOREIGN
    KEY or a UNIQUE constraint never changes the set, and after an ALTER
    TABLE ... PRIMARY KEY the table is not in it. *)
Theorem pending_set_step (self self' : DdlChecker) (query : str) :
  check_query self query = Ok self' →
  (_no_primary_key_table_names self' = _no_primary_key_table_names self
   ∨ (∃ t, creates_without_primary_key t query
           ∧ _no_primary_key_table_names self'
             = {[t]} ∪ _no_primary_key_table_names self)
   ∨ (∃ t, adds_primary_key t query
           ∧ t ∈ _no_primary_key_table_names self
           ∧ _no_primary_key_table_names self'
             = _no_primary_key_table_names self ∖ {[t]}))
  ∧ ((∀ t, ¬ creates_without_primary_key t query) →
     (∀ t, ¬ adds_primary_key t query) →
     _no_primary_key_table_names self' = _no_primary_key_table_names self)
  ∧ (∀ t, adds_primary_key t query → t ∉ _no_primary_key_table_names self').
Proof.
  intros Hrun.
  assert (∀ t, t ∈ _no_primary_key_table_names self'
               ↔ (t ∈ _no_primary_key_table_names self
                  ∧ ¬ adds_primary_key t query)
                 ∨ creates_without_primary_key t query) as Hiff.
  { intros t. by apply check_query_pending. }
  split_and!.
  - pose proof Hrun as Hrun'. unfold check_query in Hrun'.
    destruct (classify query) eqn:Hk.
    + destruct (split query !! 2%nat) as [t|] eqn:H2;
        [|by unfold _check_create_table_query, getitem in Hrun';
          rewrite H2 in Hrun'].
      rewrite (_check_create_table_query_Ok _ _ t) in Hrun' by done.
      injection Hrun' as <-.
      destruct (contains PRIMARY_KEY query) eqn:Hpk; [by left|].
      right; left. by exists t.
    + left. apply set_eq. intros t. rewrite Hiff.
      split; [intros [[? _]|(? & _)]; [done|congruence]|].
      intros Hin. left. split; [done|]. intros (? & _). congruence.
    + left. apply set_eq. intros t. rewrite Hiff.
      split; [intros [[? _]|(? & _)]; [done|congruence]|].
      intros Hin. left. split; [done|]. intros (? & _). congruence.
    + destruct (_check_alter_table_add_constraint_query_inv _ _ _ Hrun')
        as (t & ident & H2 & H5 & [[H6 H7]|[Hno ->]]); [|by left].
      rewrite (_check_alter_table_add_constraint_query_primary_key _ _ t ident)
        in Hrun' by done.
      injection Hrun' as <-. case_bool_decide; [|by left].
      right; right. by exists t.
    + left. by injection Hrun' as <-.
  - intros Hc Ha. apply set_eq. intros t. rewrite Hiff.
    split; [intros [[? _]|?]; [done|by apply Hc in H]|].
    intros Hin. left. split; [done|apply Ha].
  - intros t. exact (adds_primary_key_removes _ _ _ t Hrun).
Qed.

Lemma pending_set_step_witness :
  ∃ self',
    check_query (set_pending {[u "t"]} (init [])) alter_t = Ok self'
    ∧ u "t" ∉ _no_primary_key_table_names self'.
Proof.
  exists (init []).
  assert (check_query (set_pending {[u "t"]} (init [])) alter_t = Ok (init []))
    as Hrun by (by vm_compute).
  split; [exact Hrun|].
  destruct (pending_set_step _ _ _ Hrun) as (_ & _ & H).
  apply H. split_and!; by vm_compute.
Defined.

(** X10: the messages of the missing primary keys, exactly: when the static check
    of a new checker ends, the message of a table is in the final list when,
    and only when, some statement is a CREATE TABLE of that table without
    PRIMARY KEY and no statement after it is an ALTER TABLE ... ADD
    CONSTRAINT ... PRIMARY KEY of that table. *)
Theorem missing_primary_key_exactly
    (set_iter : gset str → list str) (ddl : str) (self' : DdlChecker)
    (t : str) :
  (∀ s, set_iter s ≡ₚ elements s) →
  _check_ddl_syntax set_iter (init ddl) = Ok self' →
  msg_missing_primary_key t ∈ messages self'
  ↔ ∃ i query,
      statements ddl !! i = Some query
      ∧ creates_without_primary_key t query
      ∧ Forall (fun query => ¬ adds_primary_key t query)
          (drop (S i) (statements ddl)).
Proof.
  intros Hperm H.
  destruct (_check_ddl_syntax_inv _ _ _ H) as (self1 & Hloop & ->).
  simpl in Hloop.
  pose proof (check_queries_pending t _ (init ddl) self1 Hloop) as Hp.
  simpl in Hp.
  destruct (check_queries_messages _ _ _ Hloop) as (d & Hd & Hshape).
  simpl. rewrite Hd. simpl. rewrite elem_of_app. split.
  - intros [Hin|Hin].
    + exfalso. eapply Forall_forall in Hshape; [|exact Hin].
      by apply (statement_message_not_missing _ t) in Hshape.
    + apply list_elem_of_fmap in Hin as (t' & Heq & Hin).
      apply msg_missing_primary_key_inj in Heq as <-.
      apply (elem_of_set_iter _ Hperm) in Hin.
      apply Hp in Hin as [[Hin _]|?]; [by apply elem_of_empty in Hin|done].
  - intros Hex. right. apply list_elem_of_fmap_2.
    apply (elem_of_set_iter _ Hperm). apply Hp. by right.
Qed.

Lemma missing_primary_key_exactly_witness :
  msg_missing_primary_key (u "t")
    ∈ [msg_missing_primary_key (u "t")]
  ↔ ∃ i query,
      statements create_alter_with_space !! i = Some query
      ∧ creates_without_primary_key (u "t") query
      ∧ Forall (fun query => ¬ adds_primary_key (u "t") query)
          (drop (S i) (statements create_alter_with_space)).
Proof.
  apply (missing_primary_key_exactly elements create_alter_with_space
           (extend [msg_missing_primary_key (u "t")]
              (set_pending {[u "t"]} (init create_alter_with_space)))
           (u "t") ltac:(done) ltac:(by vm_compute)).
Defined.

(** X11: two runs of the static check differ by the order of the set only:
    with two orders of iteration the check ends in both runs or in none; the
    loop ends in the same checker, so both final lists start with the
    messages that were there and the messages the statements append, in the
    order of the document; after them each run has the messages of the
    missing primary keys of the set the loop leaves, in its order, and these
    two lists are the same up to their order. *)
Theorem _check_ddl_syntax_set_order
    (set_iter1 set_iter2 : gset str → list str) (self self1 : DdlChecker) :
  (∀ s, set_iter1 s ≡ₚ elements s) →
  (∀ s, set_iter2 s ≡ₚ elements s) →
  _check_ddl_syntax set_iter1 self = Ok self1 →
  ∃ self0 ds self2,
    run self (statements (_ddl self)) ds self0
    ∧ _check_ddl_syntax set_iter2 self = Ok self2
    ∧ messages self1
      = messages self ++ concat ds
          ++ (msg_missing_primary_key
                <$> set_iter1 (_no_primary_key_table_names self0))
    ∧ messages self2
      = messages self ++ concat ds
          ++ (msg_missing_primary_key
                <$> set_iter2 (_no_primary_key_table_names self0))
    ∧ (msg_missing_primary_key
         <$> set_iter1 (_no_primary_key_table_names self0))
      ≡ₚ (msg_missing_primary_key
            <$> set_iter2 (_no_primary_key_table_names self0))
    ∧ _no_primary_key_table_names self1 = _no_primary_key_table_names self0
    ∧ _no_primary_key_table_names self2 = _no_primary_key_table_names self0.
Proof.
  intros H1 H2 Hrun.
  destruct (_check_ddl_syntax_inv _ _ _ Hrun) as (self0 & Hloop & ->).
  destruct (check_queries_run _ _ _ Hloop) as (ds & Hds).
  destruct (run_messages _ _ _ _ Hds) as [Hm _].
  exists self0, ds,
    (extend (msg_missing_primary_key
               <$> set_iter2 (_no_primary_key_table_names self0)) self0).
  split; [done|].
  split; [by apply _check_ddl_syntax_Ok|].
  simpl. rewrite Hm, <- !app_assoc. split_and!; [done..| |done|done].
  by rewrite H1, H2.
Qed.

Lemma _check_ddl_syntax_set_order_witness :
  ∃ self0 ds self2,
    run (init create_alter_with_space)
      (statements (_ddl (init create_alter_with_space))) ds self0
    ∧ _check_ddl_syntax (fun s => reverse (elements s))
        (init create_alter_with_space) = Ok self2
    ∧ [msg_missing_primary_key (u "t")]
      = [] ++ concat ds
          ++ (msg_missing_primary_key
                <$> elements (_no_primary_key_table_names self0)).
Proof.
  destruct (_check_ddl_syntax_set_order elements
              (fun s => reverse (elements s))
              (init create_alter_with_space)
              (extend [msg_missing_primary_key (u "t")]
                 (set_pending {[u "t"]} (init create_alter_with_space)))
              ltac:(done) ltac:(intros s; apply reverse_Permutation)
              ltac:(by vm_compute))
    as (self0 & ds & self2 & Ha & Hb & Hc & _).
  exists self0, ds, self2. split; [exact Ha|]. split; [exact Hb|]. exact Hc.
Defined.

(** ** The execution phase *)

Lemma _execute_ddl_turns_retried lower self : ∀ turns rest submitted,
  Forall retried turns →
  _execute_ddl_turns lower (turns ++ rest) submitted self
  = _execute_ddl_turns lower rest
      (submitted + length (filter (fun t => submits t = true) turns)) self.
Proof.
  induction turns as [|t turns IH]; intros rest n Hall; simpl.
  - by rewrite Nat.add_0_r.
  - apply Forall_cons in Hall as [[->| ->] Hall].
    + rewrite filter_cons_False by done. by apply IH.
    + rewrite filter_cons_True by done. rewrite IH by done. simpl.
      f_equal. lia.
Qed.

Lemma _execute_ddl_erase lower self : ∀ turns rest,
  Forall retried turns →
  _execute_ddl lower ((attempt_of <$> turns) ++ rest) self
  = _execute_ddl lower rest self.
Proof. intros turns rest Hall. induction Hall as [|t turns [->| ->] _ IH]; done. Qed.

Lemma except_clause_OrigError lower original_error self :
  ∃ self',
    except_clause lower (OrigError original_error) self = Some (Stopped self')
    ∧ _execute_ddl lower [RaisedError original_error] self = Some (Ok self')
    ∧ _ddl self' = _ddl self
    ∧ _no_primary_key_table_names self' = _no_primary_key_table_names self.
Proof.
  destruct (_execute_ddl_total lower [RaisedError original_error])
    as (execution & _ & He).
  { exists (RaisedError original_error).
    split; [by apply list_elem_of_singleton|done]. }
  specialize (He self).
  exists (extend execution self). split_and!; [|done..].
  unfold except_clause. simpl in He.
  destruct (re_search re_partition_error (lower original_error))
    as [group|] eqn:E.
  - injection He as He. by rewrite He.
  - congruence.
Qed.

(** X12: the DDL is submitted at every turn of the loop whose connection
    succeeds: a turn is retried when the exception caught has an
    OperationalError as orig, whether connect or execute raised it, so after
    an OperationalError of execute the DDL is submitted again.  The phase is
    decided by the first turn that is not retried, and the DDL has then been
    submitted as often as there are turns that called execute, that turn
    included.  A deciding exception without orig ends the phase with
    AttributeError before the container is stopped; any other deciding turn
    stops the container, with the checker that [_execute_ddl] gives for
    these turns, and IndexError is never raised.  With retried turns only
    the phase gives no result. *)
Theorem _execute_ddl_turns_submissions
    (lower : str → str) (turns : list turn) (deciding : turn)
    (later : list turn) (self : DdlChecker) :
  Forall retried turns → ¬ retried deciding →
  ∃ ending,
    _execute_ddl_turns lower (turns ++ deciding :: later) 0 self
    = Some (ending,
            length (filter (fun t => submits t = true) (turns ++ [deciding])))
    ∧ (ending = RaisedAttributeError ↔ ¬ has_orig deciding)
    ∧ ending ≠ RaisedIndexError
    ∧ (has_orig deciding →
       ∃ self',
         ending = Stopped self'
         ∧ _execute_ddl lower (attempt_of <$> turns ++ [deciding]) self
           = Some (Ok self')
         ∧ _ddl self' = _ddl self
         ∧ _no_primary_key_table_names self'
           = _no_primary_key_table_names self)
    ∧ _execute_ddl_turns lower turns 0 self = None.
Proof.
  intros Hall Hdec.
  assert (_execute_ddl_turns lower turns 0 self = None) as Hnone.
  { rewrite <- (app_nil_r turns). by rewrite _execute_ddl_turns_retried. }
  rewrite _execute_ddl_turns_retried by done.
  rewrite filter_app, length_app, fmap_app, _execute_ddl_erase by done.
  rewrite Nat.add_0_l.
  set (n := length (filter (fun t => submits t = true) turns)).
  destruct deciding as [[|original_error|]|[|original_error|]|].
  - exfalso. apply Hdec. by left.
  - destruct (except_clause_OrigError lower original_error self)
      as (self' & Hh & He & Hd & Hp).
    exists (Stopped self'). rewrite filter_cons_False by done.
    cbn [_execute_ddl_turns]. rewrite Hh, filter_nil. cbn [length].
    rewrite Nat.add_0_r.
    split_and!; [done| |done| |done].
    + split; [done|]. intros H. exfalso. apply H. by split.
    + intros _. by exists self'.
  - exists RaisedAttributeError. rewrite filter_cons_False by done.
    rewrite filter_nil. cbn [length _execute_ddl_turns except_clause].
    rewrite Nat.add_0_r.
    split_and!; [done| |done| |done].
    + split; [|done]. intros _ [H _]. by apply H.
    + intros [H _]. by destruct H.
  - exfalso. apply Hdec. by right.
  - destruct (except_clause_OrigError lower original_error self)
      as (self' & Hh & He & Hd & Hp).
    exists (Stopped self'). rewrite filter_cons_True by done.
    cbn [_execute_ddl_turns]. rewrite Hh, filter_nil. cbn [length].
    rewrite Nat.add_1_r.
    split_and!; [done| |done| |done].
    + split; [done|]. intros H. exfalso. apply H. by split.
    + intros _. by exists self'.
  - exists RaisedAttributeError. rewrite filter_cons_True by done.
    rewrite filter_nil. cbn [length _execute_ddl_turns except_clause].
    rewrite Nat.add_1_r.
    split_and!; [done| |done| |done].
    + split; [|done]. intros _ [_ H]. by apply H.
    + intros [_ H]. by destruct H.
  - exists (Stopped self). rewrite filter_cons_True by done.
    rewrite filter_nil. cbn [length _execute_ddl_turns]. rewrite Nat.add_1_r.
    split_and!; [done| |done| |done].
    + split; [done|]. intros H. exfalso. apply H. by split.
    + intros _. by exists self.
Qed.

Lemma _execute_ddl_turns_submissions_witness :
  ∃ ending,
    _execute_ddl_turns ascii_lower
      ([ConnectRaised OrigOperationalError; ExecuteRaised OrigOperationalError]
         ++ ExecuteReturned :: []) 0 (init [])
    = Some (ending, 2%nat).
Proof.
  destruct (_execute_ddl_turns_submissions ascii_lower
              [ConnectRaised OrigOperationalError;
               ExecuteRaised OrigOperationalError]
              ExecuteReturned [] (init []))
    as (ending & H & _).
  - constructor; [by left|]. constructor; [by right|]. constructor.
  - by intros [?|?].
  - by exists ending.
Defined.

Lemma split_from_word_quote x w r :
  nospace x →
  split_from w (x ++ 34 :: 32 :: r) = (w ++ x ++ [34]) :: split_from [] r.
Proof.
  intros Hx. replace (x ++ 34 :: 32 :: r) with ((x ++ [34]) ++ 32 :: r)
    by (by rewrite <- app_assoc).
  rewrite split_from_word; [done| |done|].
  - apply Forall_app. split; [done|]. by repeat constructor.
  - by destruct w, x.
Qed.

Lemma split_partition_error_text table column tail :
  nospace table → nospace column →
  ∃ words,
    split (partition_error_text table column ++ tail)
    = [u "primary"; u "key"; u "constraint"; u "on"; u "table";
       [DQUOTE] ++ table ++ [DQUOTE]; u "lacks"; u "column";
       [DQUOTE] ++ column ++ [DQUOTE]] ++ words.
Proof.
  intros Ht Hc. unfold partition_error_text, split.
  repeat match goal with
         | |- context [u ?s] =>
           let v := eval vm_compute in (u s) in change (u s) with v
         end.
  unfold DQUOTE. rewrite <- !app_assoc. simpl.
  rewrite split_from_word_quote by done. simpl.
  rewrite split_from_word_quote by done. simpl. eauto.
Qed.

(** X13: the names of the message of the partition error: from a text of the
    engine whose table and column have no white space, the sixth and the
    ninth word are the two names with their double quotes, whatever comes
    after the text, and the message is made of them. *)
Theorem _parse_partition_error_text_names
    (self : DdlChecker) (table column tail : str) :
  nospace table → nospace column →
  _parse_partition_error_text self (partition_error_text table column ++ tail)
  = Ok (append (msg_partition ([DQUOTE] ++ table ++ [DQUOTE])
                  ([DQUOTE] ++ column ++ [DQUOTE])) self).
Proof.
  intros Ht Hc.
  destruct (split_partition_error_text table column tail Ht Hc) as [words H].
  unfold _parse_partition_error_text, getitem. by rewrite H.
Qed.

Lemma _parse_partition_error_text_names_witness :
  _parse_partition_error_text (init [])
    (partition_error_text (u "orders") (u "created_at") ++ [])
  = Ok (append (msg_partition ([DQUOTE] ++ u "orders" ++ [DQUOTE])
                  ([DQUOTE] ++ u "created_at" ++ [DQUOTE])) (init [])).
Proof.
  apply (_parse_partition_error_text_names (init []) (u "orders")
           (u "created_at") []).
  - unfold nospace. decide_closed.
  - unfold nospace. decide_closed.
Defined.

(** ** The partition error and [main] *)

Lemma re_plus_cons P k c s : P c = true → re_plus P k (c :: s) = re_try P k s.
Proof. intros H. unfold re_try. simpl. by rewrite H. Qed.

Lemma re_try_cons P k c s :
  P c = true →
  re_try P k (c :: s)
  = match re_try P k s with Some x => Some x | None => k (c :: s) end.
Proof. intros H. unfold re_try at 1. by rewrite re_plus_cons. Qed.

Lemma re_lit_head L k q c s :
  head L = Some q → q ≠ c → re_lit L k (c :: s) = None.
Proof.
  intros HL Hq. destruct L as [|q' L]; [done|]. injection HL as ->.
  unfold re_lit. simpl. by rewrite (proj2 (N.eqb_neq q c)).
Qed.

Lemma re_try_dead P L q k s : ∀ a,
  head L = Some q → Forall (fun c => P c = true) a → q ∉ a →
  re_try P (re_lit L k) (a ++ s) = re_try P (re_lit L k) s.
Proof.
  induction a as [|c a IH]; intros HL HP Hq; [done|].
  apply Forall_cons in HP as [Hc HP]. apply not_elem_of_cons in Hq as [Hqc Hq].
  simpl. rewrite re_try_cons by done. rewrite IH by done.
  destruct (re_try P (re_lit L k) s); [done|]. by apply (re_lit_head _ _ q).
Qed.

Lemma re_try_end L q k post :
  head L = Some q → q ≠ LF → post = [] ∨ head post = Some LF →
  re_try dot (re_lit L k) post = None.
Proof.
  intros HL Hq [->|Hpost].
  - unfold re_try, re_lit. simpl. by destruct L.
  - destruct post as [|c post]; [done|]. injection Hpost as ->.
    unfold re_try. simpl. by apply (re_lit_head _ _ q).
Qed.

Lemma nospace_dot x : nospace x → Forall (fun c => dot c = true) x.
Proof.
  intros H. eapply Forall_impl; [exact H|]. intros c Hc. simpl in *. bool_lia.
Qed.

(** A pattern of the shape of the one of the partition error, on a text of
    that shape: the two repetitions stop at the double quotes that close the
    names, and the match is the whole text. *)
Lemma re_quoted_names_match (L1 A B : str) (table column post : str) (dot1 : char) :
  Forall (fun c => dot c = true) A → DQUOTE ∉ A → head A = Some SPACE →
  Forall (fun c => dot c = true) B → DQUOTE ∉ B →
  (∀ r, strip_prefix ([DQUOTE] ++ A ++ [DQUOTE]) ([DQUOTE] ++ B ++ r) = None) →
  dot dot1 = true → dot1 ≠ DQUOTE →
  table ≠ [] → column ≠ [] → nospace table → nospace column →
  DQUOTE ∉ table → DQUOTE ∉ column →
  post = [] ∨ head post = Some LF →
  re_lit L1
    (re_plus dot
       (re_lit ([DQUOTE] ++ A ++ [DQUOTE])
          (re_plus dot (re_lit ([DQUOTE] ++ B) (re_one dot Some)))))
    (L1 ++ table ++ ([DQUOTE] ++ A ++ [DQUOTE]) ++ column
        ++ ([DQUOTE] ++ B) ++ dot1 :: post)
  = Some post.
Proof.
  intros HA1 HA2 HA3 HB1 HB2 HAB Hd1 Hd2 Ht0 Hc0 Ht Hc Hqt Hqc Hpost.
  unfold re_lit at 1. rewrite strip_prefix_app.
  destruct table as [|t0 table]; [done|].
  destruct column as [|c0 column]; [done|].
  apply Forall_cons in Ht as [Ht0' Ht]. apply Forall_cons in Hc as [Hc0' Hc].
  apply not_elem_of_cons in Hqt as [_ Hqt].
  apply not_elem_of_cons in Hqc as [Hqc0 Hqc].
  assert (dot t0 = true ∧ dot c0 = true) as [Hdt Hdc].
  { split; simpl in *; bool_lia. }
  rewrite <- !app_assoc. cbn [app] in *.
  set (K3 := re_lit (DQUOTE :: B) (re_one dot Some)).
  set (K2 := re_lit (DQUOTE :: A ++ [DQUOTE]) (re_plus dot K3)).
  assert (∀ L k, head L = Some DQUOTE →
                 re_try dot (re_lit L k) (B ++ dot1 :: post) = None) as Hend.
  { intros L k HL. rewrite (re_try_dead _ _ DQUOTE) by done.
    rewrite re_try_cons by done.
    rewrite (re_try_end _ DQUOTE) by done. by apply (re_lit_head _ _ DQUOTE). }
  assert (re_plus dot K3 (c0 :: column ++ DQUOTE :: B ++ dot1 :: post)
          = Some post) as H3.
  { rewrite re_plus_cons by done.
    unfold K3. rewrite (re_try_dead _ _ DQUOTE) by (by try apply nospace_dot).
    rewrite re_try_cons by done. rewrite Hend by done.
    unfold re_lit.
    change (DQUOTE :: B ++ dot1 :: post) with ((DQUOTE :: B) ++ dot1 :: post).
    rewrite strip_prefix_app. simpl. by rewrite Hd1. }
  assert (K2 (DQUOTE :: B ++ dot1 :: post) = None) as HK2B.
  { unfold K2, re_lit. by rewrite HAB. }
  assert (K2 (DQUOTE :: c0 :: column ++ DQUOTE :: B ++ dot1 :: post) = None)
    as HK2c.
  { unfold K2, re_lit. destruct A as [|a A]; [done|]. injection HA3 as ->.
    cbn [strip_prefix app]. rewrite N.eqb_refl.
    rewrite (proj2 (N.eqb_neq SPACE c0)); [done|]. intros <-. done. }
  assert (re_try dot K2 (A ++ DQUOTE :: c0 :: column ++ DQUOTE :: B
                           ++ dot1 :: post) = None) as Hdead.
  { unfold K2 at 1. rewrite (re_try_dead _ _ DQUOTE) by done. fold K2.
    rewrite re_try_cons by done. rewrite re_try_cons by done.
    unfold K2 at 1.
    rewrite (re_try_dead _ _ DQUOTE) by (by try apply nospace_dot). fold K2.
    rewrite re_try_cons by done.
    unfold K2 at 1. rewrite Hend by done. fold K2.
    rewrite HK2B, HK2c.
    unfold K2. by rewrite (re_lit_head _ _ DQUOTE c0). }
  rewrite re_plus_cons by done.
  unfold K2 at 1. rewrite (re_try_dead _ _ DQUOTE) by (by try apply nospace_dot).
  fold K2. rewrite re_try_cons by done. rewrite Hdead.
  assert (∀ r, strip_prefix (DQUOTE :: A ++ [DQUOTE]) (DQUOTE :: A ++ DQUOTE :: r)
               = Some r) as Hs.
  { intros r. apply strip_prefix_Some. cbn [app]. by rewrite <- app_assoc. }
  unfold K2, re_lit. rewrite Hs. exact H3.
Qed.

Lemma partition_error_text_app table column post :
  partition_error_text table column ++ post
  = (u "primary key constraint on table " ++ [DQUOTE]) ++ table
    ++ ([DQUOTE] ++ u " lacks column " ++ [DQUOTE]) ++ column
    ++ ([DQUOTE] ++ u " which is part of the partition key") ++ 46 :: post.
Proof.
  unfold partition_error_text.
  assert (u " which is part of the partition key."
          = u " which is part of the partition key" ++ [46]) as ->
    by (vm_compute; reflexivity).
  rewrite <- !app_assoc. reflexivity.
Qed.

(** The pattern of the partition error on the text of the engine: the match
    is the whole text. *)
Lemma re_partition_error_text table column post :
  table ≠ [] → column ≠ [] → nospace table → nospace column →
  DQUOTE ∉ table → DQUOTE ∉ column →
  post = [] ∨ head post = Some LF →
  re_partition_error Some (partition_error_text table column ++ post)
  = Some post.
Proof.
  intros. rewrite partition_error_text_app. unfold re_partition_error.
  apply re_quoted_names_match; try done; decide_closed.
Qed.

Lemma re_search_here p s rest :
  p Some s = Some rest → re_search p s = Some (take (length s - length rest) s).
Proof. intros H. destruct s; simpl; by rewrite H. Qed.

Lemma re_search_skip (p : pattern) a b s : ∀ pre,
  (∀ c r, c ≠ a → p Some (c :: r) = None) →
  (∀ c r, c ≠ b → p Some (a :: c :: r) = None) →
  contains [a; b] pre = false → last pre ≠ Some a →
  re_search p (pre ++ s) = re_search p s.
Proof.
  intros pre Ha Hb. induction pre as [|c pre IH]; intros Hc Hl; [done|].
  rewrite contains_cons in Hc. apply orb_false_elim in Hc as [Hst Hc].
  assert (p Some (c :: pre ++ s) = None) as Hnone.
  { destruct (decide (c = a)) as [->|Hca]; [|by apply Ha].
    destruct pre as [|c' pre].
    - exfalso. by apply Hl.
    - simpl. apply Hb. intros Hcb. cbn [startswith] in Hst.
      by rewrite Hcb, !N.eqb_refl in Hst. }
  simpl. rewrite Hnone. destruct pre as [|c' pre]; [done|].
  apply IH; [done|]. by rewrite last_cons_cons in Hl.
Qed.

(** X14: the failure of the partition key: when the text of the failure, in lower
    case, has the sentence of the engine about a table and a column in double
    quotes (names with no white space and no double quote in them), no
    letters pr before it, and nothing or a line feed after it, the execution
    phase appends the one message that names the table and the column, with
    their double quotes. *)
Theorem _execute_ddl_partition_error
    (lower : str → str) (original_error pre table column post : str)
    (self : DdlChecker) :
  lower original_error = pre ++ partition_error_text table column ++ post →
  contains (u "pr") pre = false → last pre ≠ Some 112 →
  table ≠ [] → column ≠ [] → nospace table → nospace column →
  DQUOTE ∉ table → DQUOTE ∉ column →
  post = [] ∨ head post = Some LF →
  _execute_ddl lower [RaisedError original_error] self
  = Some (Ok (append (msg_partition ([DQUOTE] ++ table ++ [DQUOTE])
                        ([DQUOTE] ++ column ++ [DQUOTE])) self)).
Proof.
  intros Hlow Hpre Hlast Ht0 Hc0 Ht Hc Hqt Hqc Hpost.
  pose proof (re_partition_error_text table column post Ht0 Hc0 Ht Hc Hqt Hqc
                Hpost) as Hmatch.
  assert (∃ L, u "primary key constraint on table " ++ [DQUOTE]
               = 112 :: 114 :: L) as [L HL]
    by (eexists; vm_compute; reflexivity).
  simpl. rewrite Hlow.
  rewrite (re_search_skip re_partition_error 112 114).
  - rewrite (re_search_here _ _ _ Hmatch).
    rewrite length_app, Nat.add_sub, take_app_length.
    rewrite <- (app_nil_r (partition_error_text table column)).
    destruct (split_partition_error_text table column [] Ht Hc) as [words Hw].
    unfold _parse_partition_error_text, getitem. by rewrite Hw.
  - intros c r Hc'. unfold re_partition_error. rewrite HL.
    by apply (re_lit_head _ _ 112).
  - intros c r Hc'. unfold re_partition_error, re_lit. rewrite HL.
    cbn [strip_prefix]. rewrite N.eqb_refl.
    by rewrite (proj2 (N.eqb_neq 114 c)).
  - done.
  - done.
Qed.

Lemma _execute_ddl_partition_error_witness :
  _execute_ddl ascii_lower [RaisedError postgres_partition_error] (init [])
  = Some (Ok (append (msg_partition ([DQUOTE] ++ u "orders" ++ [DQUOTE])
                        ([DQUOTE] ++ u "created_at" ++ [DQUOTE])) (init []))).
Proof.
  apply (_execute_ddl_partition_error ascii_lower postgres_partition_error
           (u "unique constraint on partitioned table must include all partitioning columns"
              ++ [LF] ++ u "detail:  ")
           (u "orders") (u "created_at") [LF]).
  - vm_compute. reflexivity.
  - vm_compute. reflexivity.
  - vm_compute. intros [=].
  - vm_compute. intros [=].
  - vm_compute. intros [=].
  - unfold nospace. decide_closed.
  - unfold nospace. decide_closed.
  - decide_closed.
  - decide_closed.
  - right. reflexivity.
Defined.

(** ** main *)

Lemma _execute_ddl_silent lower attempts : ∀ self self',
  _execute_ddl lower attempts self = Some (Ok self') →
  messages self' = messages self →
  ∃ retries later,
    attempts = replicate retries RaisedOperationalError ++ Executed :: later.
Proof.
  induction attempts as [|a attempts IH]; intros self self'; simpl; [done|].
  destruct a as [| |original_error].
  - intros _ _. by exists 0%nat, attempts.
  - intros H Hm. destruct (IH _ _ H Hm) as (n & later & ->).
    by exists (S n), later.
  - intros H Hm. exfalso.
    assert (∃ m, self' = append m self) as [m ->].
    { destruct (re_search re_partition_error (lower original_error))
        as [group|] eqn:E.
      - destruct (_parse_partition_error_text_Ok _ _ E) as (t & c & Hp).
        rewrite Hp in H. injection H as <-. eauto.
      - injection H as <-. eauto. }
    simpl in Hm. apply (f_equal length) in Hm.
    rewrite length_app in Hm. simpl in Hm. lia.
Qed.

Lemma _execute_ddl_retries lower retries attempts self :
  _execute_ddl lower (replicate retries RaisedOperationalError ++ attempts) self
  = _execute_ddl lower attempts self.
Proof. induction retries as [|n IH]; simpl; done. Qed.

Lemma attempts_cases (attempts : list attempt) :
  Forall (fun a => a = RaisedOperationalError) attempts
  ∨ ∃ a, a ∈ attempts ∧ a ≠ RaisedOperationalError.
Proof.
  induction attempts as [|a attempts [IH|(b & Hb & Hne)]].
  - left. constructor.
  - destruct a; [right|left|right].
    + exists Executed. split; [apply elem_of_cons; by left|done].
    + by constructor.
    + eexists. split; [apply elem_of_cons; by left|done].
  - right. exists b. split; [apply elem_of_cons; by right|done].
Qed.

(** X15: when [main] ends with success: [main] returns (status 0), and then with
    nothing printed, exactly when the path is given, the file can be read,
    every statement has the words its checker reads, no statement has a
    message, no table is left without primary key, and the first turn of the
    execution that is not retried executes the DDL. *)
Theorem main_returns
    (set_iter : gset str → list str) (lower : str → str) (argv : list str)
    (open_file : str → opened) (attempts : list attempt) (out : list str) :
  (∀ s, set_iter s ≡ₚ elements s) →
  main set_iter lower argv open_file attempts = Some (out, Returned)
  ↔ out = []
    ∧ ∃ path ddl self1 retries later,
        argv !! 1%nat = Some path
        ∧ open_file path = Content ddl
        ∧ check_queries (init ddl) (statements ddl) = Ok self1
        ∧ messages self1 = []
        ∧ _no_primary_key_table_names self1 = ∅
        ∧ attempts
          = replicate retries RaisedOperationalError ++ Executed :: later.
Proof.
  intros Hperm. unfold main. split.
  - destruct (length argv <? 2)%nat; [done|].
    destruct (argv !! 1%nat) as [path|]; [|done].
    destruct (open_file path) as [ddl| |] eqn:Ho; [|done..].
    unfold check_ddl.
    destruct (_check_ddl_syntax set_iter (init ddl)) as [self'|] eqn:Hs; [|done].
    destruct (_execute_ddl lower attempts self') as [[self''|]|] eqn:He;
      [|done..].
    destruct (messages self'') as [|m ms] eqn:Hm; [|done].
    intros [= <-]. split; [done|].
    destruct (_check_ddl_syntax_inv _ _ _ Hs) as (self1 & Hloop & ->).
    destruct (check_queries_messages _ _ _ Hloop) as (d & Hd & _).
    simpl in Hloop, Hd.
    assert (∃ execution, self''
              = extend execution
                  (extend (msg_missing_primary_key
                             <$> set_iter (_no_primary_key_table_names self1))
                     self1)) as [execution ->].
    { destruct (attempts_cases attempts) as [Hall|Hex].
      - exfalso. clear -Hall He. induction attempts as [|a attempts IH]; [done|].
        apply Forall_cons in Hall as [-> Hall]. simpl in He. by apply IH.
      - destruct (_execute_ddl_total lower attempts Hex) as (ex & _ & H).
        rewrite H in He. injection He as <-. eauto. }
    simpl in Hm. rewrite Hd in Hm.
    apply app_eq_nil in Hm as [[-> Hmiss%fmap_nil_inv]%app_eq_nil ->].
    assert (_no_primary_key_table_names self1 = ∅) as Hempty.
    { apply leibniz_equiv, elements_empty_iff.
      apply Permutation_nil_r. by rewrite <- Hperm, Hmiss. }
    destruct (_execute_ddl_silent _ _ _ _ He) as (n & later & ->).
    { simpl. by rewrite app_nil_r. }
    by exists path, ddl, self1, n, later.
  - intros (-> & path & ddl & self1 & n & later & Hp & Ho & Hloop & Hm & He & ->).
    assert (2 ≤ length argv)%nat as Hlen.
    { apply lookup_lt_Some in Hp. lia. }
    rewrite (proj2 (Nat.ltb_ge _ _)) by done. rewrite Hp, Ho.
    unfold check_ddl.
    rewrite (_check_ddl_syntax_Ok set_iter (init ddl) self1) by done.
    rewrite _execute_ddl_retries. simpl.
    rewrite Hm, He, (set_iter_empty _ Hperm). done.
Qed.

Lemma main_returns_witness :
  main elements ascii_lower [u "main.py"; u "schema.sql"]
    (fun _ => Content (layout [create_t; alter_t]))
    [RaisedOperationalError; Executed]
  = Some ([], Returned).
Proof.
  apply (main_returns elements ascii_lower [u "main.py"; u "schema.sql"]
           (fun _ => Content (layout [create_t; alter_t]))
           [RaisedOperationalError; Executed] [] ltac:(done)).
  split; [done|].
  exists (u "schema.sql"), (layout [create_t; alter_t]),
    (init (layout [create_t; alter_t])), 1%nat, [].
  split_and!; by vm_compute.
Defined.
